(** * lecture-voice-notes: transcript cleaning, insight extraction and
      defensive parsing of generative-model output

    A shallow embedding of [utils/text_processing.py] (class
    [TextProcessor] and the two module functions), of the response
    parsers and their fallbacks in [models/quiz_generator.py] and
    [models/flashcard_generator.py], of the Anki export of the latter
    and of the transcript statistics of [models/speech_to_text.py].

    Text is a list of characters.  Characters are [ascii]; the Python
    predicates and conversions ([str.isspace], [str.isalpha],
    [str.lower], [str.upper], and the classes [\s], [\d], [\w] of [re])
    are given on the 7-bit range, where Python's Unicode tables and the
    ASCII ones coincide; code points from 128 on are treated as uncased
    symbols.

    The standard-library routines the source calls are modelled from
    their documented behaviour: [re] by a backtracking matcher with
    Python's priorities (leftmost, alternatives in order, greedy or lazy
    repetition), [json.loads] by a lexer and a push-down recogniser of
    the JSON grammar, within the interpreter's limits on nesting and on
    the digits of an integer.  A float is the exact rational value of a
    binary double; true division and [round] round to 53 bits, ties to
    even. *)

From Stdlib Require Import Ascii String.
From Stdlib Require Import Bool Arith ZArith QArith Qabs Qround Lia.
From Stdlib Require Import List Sorting.Sorted Sorting.Permutation.
Import ListNotations.
Close Scope Q_scope.

Set Implicit Arguments.

(** ** Characters and strings *)

Definition str := list ascii.

Definition lit (s : string) : str := list_ascii_of_string s.
Arguments lit s%_string.

Definition code (c : ascii) : nat := nat_of_ascii c.

Definition between (lo hi : nat) (c : ascii) : bool :=
  (lo <=? code c) && (code c <=? hi).

Definition is_upper (c : ascii) : bool := between 65 90 c.
Definition is_lower (c : ascii) : bool := between 97 122 c.
Definition is_alpha (c : ascii) : bool := is_upper c || is_lower c.
Definition is_digit (c : ascii) : bool := between 48 57 c.

(** [str.isspace] on one character: TAB, LF, VT, FF, CR, the four
    separators 0x1c-0x1f and the space. *)
Definition is_space (c : ascii) : bool :=
  between 9 13 c || between 28 31 c || (code c =? 32).

(** [\w] of [re]: letters, digits and the underscore. *)
Definition is_word (c : ascii) : bool :=
  is_alpha c || is_digit c || (code c =? 95).

(** Membership in [string.punctuation]. *)
Definition is_punctuation (c : ascii) : bool :=
  between 33 47 c || between 58 64 c || between 91 96 c || between 123 126 c.

Definition lower_char (c : ascii) : ascii :=
  if is_upper c then ascii_of_nat (code c + 32) else c.

Definition upper_char (c : ascii) : ascii :=
  if is_lower c then ascii_of_nat (code c - 32) else c.

Definition lower (s : str) : str := map lower_char s.
Definition upper (s : str) : str := map upper_char s.

(** A character is one 8-bit code.  The character classes and the case
    maps above are those of Python on the ASCII codes, where [str.lower],
    [str.upper], [str.isalpha] and [str.isspace] work code by code; the
    statements that depend on them are made about ASCII text. *)
Definition is_ascii (c : ascii) : bool := code c <? 128.

Definition ascii_text (s : str) : Prop := forallb is_ascii s = true.

Definition ascii_eqb (a b : ascii) : bool := Ascii.eqb a b.

Definition str_eqb (a b : str) : bool :=
  if list_eq_dec ascii_dec a b then true else false.

(** [s.lstrip()], [s.rstrip()], [s.strip()]. *)
Fixpoint lstrip (s : str) : str :=
  match s with
  | c :: s' => if is_space c then lstrip s' else s
  | [] => []
  end.

Definition rstrip (s : str) : str := rev (lstrip (rev s)).

Definition strip (s : str) : str := rstrip (lstrip s).

(** [s.startswith(p)]. *)
Fixpoint startswith (p s : str) : bool :=
  match p, s with
  | [], _ => true
  | a :: p', b :: s' => ascii_eqb a b && startswith p' s'
  | _ :: _, [] => false
  end.

Definition endswith (p s : str) : bool := startswith (rev p) (rev s).

(** [p in s] for strings: [p] occurs as a substring of [s]. *)
Fixpoint contains (p s : str) : bool :=
  startswith p s ||
  match s with
  | [] => false
  | _ :: s' => contains p s'
  end.

(** [s.split(sep)] for a non-empty separator: the pieces between the
    occurrences of [sep], scanned left to right, empty pieces kept.
    [skip] counts the characters of a separator still to be dropped. *)
Fixpoint split_on_go (sep : str) (skip : nat) (cur : str) (s : str)
  : list str :=
  match s with
  | [] => [rev cur]
  | c :: s' =>
      match skip with
      | S n => split_on_go sep n cur s'
      | O =>
          if startswith sep s
          then rev cur :: split_on_go sep (length sep - 1) [] s'
          else split_on_go sep 0 (c :: cur) s'
      end
  end.

Definition split_on (sep : str) (s : str) : list str :=
  split_on_go sep 0 [] s.

(** [s.split()]: the maximal runs of non-whitespace characters. *)
Fixpoint split_ws_go (cur : str) (s : str) : list str :=
  match s with
  | [] => match cur with [] => [] | _ => [rev cur] end
  | c :: s' =>
      if is_space c
      then match cur with
           | [] => split_ws_go [] s'
           | _ => rev cur :: split_ws_go [] s'
           end
      else split_ws_go (c :: cur) s'
  end.

Definition split_ws (s : str) : list str := split_ws_go [] s.

(** [sep.join(parts)]. *)
Fixpoint join (sep : str) (parts : list str) : str :=
  match parts with
  | [] => []
  | [p] => p
  | p :: rest => p ++ sep ++ join sep rest
  end.

(** [s.replace(old, new)] for a non-empty [old]. *)
Definition replace (old new : str) (s : str) : str :=
  join new (split_on old s).

(** Python's [l[:k]] for an integer [k]: a negative bound counts from
    the end of the list. *)
Definition slice_to (A : Type) (k : Z) (l : list A) : list A :=
  if (k <? 0)%Z
  then firstn (Z.to_nat (Z.of_nat (length l) + k)) l
  else firstn (Z.to_nat k) l.

(** ** Regular expressions

    The fragment of [re] the source uses.  A repetition is always over a
    single-character class in the source's patterns (whitespace runs,
    one or two digits, any characters, the inside of a quotation, runs
    of punctuation marks), which is what [RRep] offers. *)

Inductive regex : Type :=
| REps
| RChar (p : ascii -> bool)
| RSeq (r1 r2 : regex)
| RAlt (r1 r2 : regex)
| RRep (greedy : bool) (lo : nat) (hi : option nat) (p : ascii -> bool)
| RGroup (n : nat) (r : regex)
| RBol (multiline : bool)
| RWordB.

(** The groups captured so far, most recent first. *)
Definition captures := list (nat * str).

Fixpoint group (n : nat) (caps : captures) : str :=
  match caps with
  | [] => []
  | (m, s) :: rest => if n =? m then s else group n rest
  end.

Definition hi_allows (hi : option nat) : bool :=
  match hi with
  | Some O => false
  | _ => true
  end.

Definition hi_pred (hi : option nat) : option nat :=
  match hi with
  | Some n => Some (pred n)
  | None => None
  end.

Section Matcher.
Variable A : Type.

(** [p{lo,hi}] (greedy) or [p{lo,hi}?] (lazy) at the head of [s],
    followed by the continuation [k].  [prev] is the character just
    before the current position. *)
Fixpoint rep (greedy : bool) (lo : nat) (hi : option nat)
         (p : ascii -> bool) (prev : option ascii) (s : str)
         (k : option ascii -> str -> option A) : option A :=
  match s with
  | [] => match lo with O => k prev [] | S _ => None end
  | c :: s' =>
      let more :=
        if hi_allows hi && p c
        then rep greedy (pred lo) (hi_pred hi) p (Some c) s' k
        else None in
      match lo with
      | S _ => more
      | O =>
          if greedy
          then match more with Some x => Some x | None => k prev s end
          else match k prev s with Some x => Some x | None => more end
      end
  end.

Definition at_bol (multiline : bool) (prev : option ascii) : bool :=
  match prev with
  | None => true
  | Some c => multiline && (code c =? 10)
  end.

Definition opt_word (c : option ascii) : bool :=
  match c with
  | None => false
  | Some c => is_word c
  end.

Definition at_word_boundary (prev : option ascii) (s : str) : bool :=
  xorb (opt_word prev) (opt_word (hd_error s)).

Fixpoint rmatch (r : regex) (prev : option ascii) (s : str)
         (caps : captures)
         (k : option ascii -> str -> captures -> option A) : option A :=
  match r with
  | REps => k prev s caps
  | RChar p =>
      match s with
      | c :: s' => if p c then k (Some c) s' caps else None
      | [] => None
      end
  | RSeq r1 r2 =>
      rmatch r1 prev s caps
        (fun prev' s' caps' => rmatch r2 prev' s' caps' k)
  | RAlt r1 r2 =>
      match rmatch r1 prev s caps k with
      | Some x => Some x
      | None => rmatch r2 prev s caps k
      end
  | RRep greedy lo hi p =>
      rep greedy lo hi p prev s (fun prev' s' => k prev' s' caps)
  | RGroup n r1 =>
      rmatch r1 prev s caps
        (fun prev' s' caps' =>
           k prev' s' ((n, firstn (length s - length s') s) :: caps'))
  | RBol multiline => if at_bol multiline prev then k prev s caps else None
  | RWordB => if at_word_boundary prev s then k prev s caps else None
  end.
End Matcher.

(** A match of [r] starting at the head of [s]: the matched text, the
    text after it and the groups. *)
Record rmatch_result : Type := MkMatch
  { m_text : str; m_rest : str; m_groups : captures }.

Definition match_here (r : regex) (prev : option ascii) (s : str)
  : option rmatch_result :=
  rmatch r prev s []
    (fun _ s' caps =>
       Some (MkMatch (firstn (length s - length s') s) s' caps)).

(** [re.search(r, s)]: the leftmost match. *)
Fixpoint search_from (r : regex) (prev : option ascii) (s : str)
  : option rmatch_result :=
  match match_here r prev s with
  | Some m => Some m
  | None =>
      match s with
      | [] => None
      | c :: s' => search_from r (Some c) s'
      end
  end.

Definition re_search (r : regex) (s : str) : option rmatch_result :=
  search_from r None s.

(** [re.sub(r, repl, s)]: every non-overlapping match, leftmost first,
    is replaced by [repl] applied to it.  [skip] counts the characters
    of the last match still to be passed over.  An empty match is
    replaced and the scan moves one character on. *)
Fixpoint sub_go (r : regex) (repl : rmatch_result -> str) (skip : nat)
         (prev : option ascii) (s : str) : str :=
  match s with
  | [] =>
      match skip, match_here r prev [] with
      | O, Some m => repl m
      | _, _ => []
      end
  | c :: s' =>
      match skip with
      | S n => sub_go r repl n (Some c) s'
      | O =>
          match match_here r prev s with
          | Some m =>
              match length (m_text m) with
              | O => repl m ++ c :: sub_go r repl 0 (Some c) s'
              | S n => repl m ++ sub_go r repl n (Some c) s'
              end
          | None => c :: sub_go r repl 0 (Some c) s'
          end
      end
  end.

Definition re_sub (r : regex) (repl : rmatch_result -> str) (s : str) : str :=
  sub_go r repl 0 None s.

(** [re.split(r, s)] for a pattern without groups that matches no empty
    text: the pieces between the matches. *)
Fixpoint re_split_go (r : regex) (skip : nat) (cur : str)
         (prev : option ascii) (s : str) : list str :=
  match s with
  | [] => [rev cur]
  | c :: s' =>
      match skip with
      | S n => re_split_go r n cur (Some c) s'
      | O =>
          match match_here r prev s with
          | Some m =>
              match length (m_text m) with
              | O => re_split_go r 0 (c :: cur) (Some c) s'
              | S n => rev cur :: re_split_go r n [] (Some c) s'
              end
          | None => re_split_go r 0 (c :: cur) (Some c) s'
          end
      end
  end.

Definition re_split (r : regex) (s : str) : list str :=
  re_split_go r 0 [] None s.

(** *** Pattern combinators *)

Definition chr (c : ascii) : regex := RChar (ascii_eqb c).

(** A literal character under [re.IGNORECASE]. *)
Definition chr_i (c : ascii) : regex :=
  RChar (fun x => ascii_eqb (lower_char x) (lower_char c)).

Fixpoint rseq (rs : list regex) : regex :=
  match rs with
  | [] => REps
  | [r] => r
  | r :: rest => RSeq r (rseq rest)
  end.

(** [r1|r2|...]; the source never writes an empty alternation. *)
Fixpoint ralt (rs : list regex) : regex :=
  match rs with
  | [] => RChar (fun _ => false)
  | [r] => r
  | r :: rest => RAlt r (ralt rest)
  end.

Definition word (s : string) : regex := rseq (map chr (lit s)).
Definition word_i (s : string) : regex := rseq (map chr_i (lit s)).

Definition one_of (s : string) (c : ascii) : bool :=
  existsb (ascii_eqb c) (lit s).

Definition any_char (c : ascii) : bool := true.

Definition star (p : ascii -> bool) : regex := RRep true 0 None p.
Definition plus (p : ascii -> bool) : regex := RRep true 1 None p.
Definition lazy_star (p : ascii -> bool) : regex := RRep false 0 None p.
Definition times (lo hi : nat) (p : ascii -> bool) : regex :=
  RRep true lo (Some hi) p.
Definition at_least (lo : nat) (p : ascii -> bool) : regex :=
  RRep true lo None p.

(** Replacement templates. *)
Definition const_repl (t : str) : rmatch_result -> str := fun _ => t.

Definition nl : ascii := ascii_of_nat 10.
Definition dquote : ascii := ascii_of_nat 34.
Definition squote : ascii := ascii_of_nat 39.
Definition space : ascii := ascii_of_nat 32.

(** ** Dictionaries with insertion order

    A Python [dict] keeps its keys in the order of their first
    insertion; assigning to a key that is present keeps its place. *)

Section Dict.
Variable V : Type.

Definition dict := list (str * V).

Fixpoint dict_get (d : dict) (key : str) (default : V) : V :=
  match d with
  | [] => default
  | (k, v) :: rest => if str_eqb k key then v else dict_get rest key default
  end.

Fixpoint dict_set (d : dict) (key : str) (v : V) : dict :=
  match d with
  | [] => [(key, v)]
  | (k, v0) :: rest =>
      if str_eqb k key then (k, v) :: rest
      else (k, v0) :: dict_set rest key v
  end.

Definition dict_keys (d : dict) : list str := map fst d.
End Dict.

(** [sorted(items, key=lambda x: x[1], reverse=True)]: a stable sort by
    descending count; items of equal count keep their relative order. *)
Fixpoint insert_desc (x : str * nat) (l : list (str * nat))
  : list (str * nat) :=
  match l with
  | [] => [x]
  | y :: rest =>
      if snd x <? snd y then y :: insert_desc x rest else x :: l
  end.

Definition sorted_desc (l : list (str * nat)) : list (str * nat) :=
  fold_right insert_desc [] l.

(** The frequency count both extractors run:
    [for w in ws: freq[w] = freq.get(w, 0) + 1]. *)
Definition count_step (freq : dict nat) (w : str) : dict nat :=
  dict_set freq w (dict_get freq w 0 + 1).

Definition count_freq (ws : list str) : dict nat :=
  fold_left count_step ws [].

(** ** utils/text_processing.py *)

(** What the deployment offers of NLTK: the stop-word corpus and the
    Punkt sentence tokenizer, each absent when its import or lookup
    raises. *)
Record Nltk : Type := MkNltk
  { corpus_stopwords : option (list str);
    sent_tokenize : option (str -> list str) }.

Definition no_nltk : Nltk := MkNltk None None.

Definition fallback_stop_words : list str :=
  map lit
    ["i"; "me"; "my"; "myself"; "we"; "our"; "ours"; "ourselves"; "you";
     "your"; "yours"; "yourself"; "yourselves"; "he"; "him"; "his";
     "himself"; "she"; "her"; "hers"; "herself"; "it"; "its"; "itself";
     "they"; "them"; "their"; "theirs"; "themselves"; "what"; "which";
     "who"; "whom"; "this"; "that"; "these"; "those"; "am"; "is"; "are";
     "was"; "were"; "be"; "been"; "being"; "have"; "has"; "had"; "having";
     "do"; "does"; "did"; "doing"; "a"; "an"; "the"; "and"; "but"; "if";
     "or"; "because"; "as"; "until"; "while"; "of"; "at"; "by"; "for";
     "with"; "through"; "during"; "before"; "after"; "above"; "below";
     "up"; "down"; "in"; "out"; "on"; "off"; "over"; "under"; "again";
     "further"; "then"; "once"]%string.

Definition _get_stop_words (nltk : Nltk) : list str :=
  match corpus_stopwords nltk with
  | Some ws => ws
  | None => fallback_stop_words
  end.

Record TextProcessor : Type := MkTextProcessor
  { stop_words : list str }.

Definition TextProcessor_init (nltk : Nltk) : TextProcessor :=
  MkTextProcessor (_get_stop_words nltk).

(** The class [[,.!?;:]] of the source's patterns. *)
Definition punct : ascii -> bool := one_of ",.!?;:".

Definition re_whitespace : regex := plus is_space.

Definition re_timestamp_square : regex :=
  rseq [chr "["; times 1 2 is_digit; chr ":"; times 2 2 is_digit; chr ":";
        times 2 2 is_digit; chr "]"].

Definition re_timestamp_round : regex :=
  rseq [chr "("; times 1 2 is_digit; chr ":"; times 2 2 is_digit; chr ":";
        times 2 2 is_digit; chr ")"].

Definition re_speaker_label : regex :=
  rseq [RBol true;
        RGroup 1 (ralt [word "Speaker"; word "Student"; word "Professor";
                        word "Lecturer"]);
        star is_space; star is_digit; star is_space; chr ":"].

Definition re_machine_label : regex :=
  rseq [RBol true;
        RGroup 1 (ralt [RSeq (word "SPEAKER_") (plus is_digit);
                        RSeq (word "UNKNOWN_") (plus is_digit)]);
        star is_space; chr ":"].

Definition re_space_before_punct : regex :=
  RSeq (plus is_space) (RGroup 1 (RChar punct)).

Definition re_adjacent_punct : regex :=
  rseq [RGroup 1 (RChar punct); star is_space; RGroup 2 (RChar punct)].

Definition _fix_transcription_artifacts (text : str) : str :=
  let text := re_sub re_timestamp_square (const_repl []) text in
  let text := re_sub re_timestamp_round (const_repl []) text in
  let text := re_sub re_speaker_label (const_repl []) text in
  let text := re_sub re_machine_label (const_repl []) text in
  let text := re_sub (word_i "[inaudible]") (const_repl (lit "[unclear]")) text in
  let text := re_sub (word_i "[unclear]") (const_repl []) text in
  let text := re_sub (word_i "[crosstalk]") (const_repl []) text in
  let text := re_sub (word_i "[music]") (const_repl []) text in
  let text := re_sub (word_i "[applause]") (const_repl []) text in
  let text := re_sub re_space_before_punct
                (fun m => group 1 (m_groups m)) text in
  let text := re_sub re_adjacent_punct
                (fun m => group 1 (m_groups m) ++ lit " " ++ group 2 (m_groups m))
                text in
  text.

(** [sentence[0].upper() + sentence[1:] if len(sentence) > 1 else
    sentence.upper()]. *)
Definition capitalize_first (sentence : str) : str :=
  match sentence with
  | c :: (_ :: _) as rest => upper [c] ++ tl sentence
  | _ => upper sentence
  end.

Fixpoint improve_each (sentences : list str) : list str :=
  match sentences with
  | [] => []
  | sentence :: rest =>
      let sentence := strip sentence in
      match sentence with
      | [] => improve_each rest
      | _ => capitalize_first sentence :: improve_each rest
      end
  end.

Definition re_sentence_end_space : regex :=
  RSeq (RGroup 1 (RChar (one_of ".!?"))) (plus is_space).

Definition re_lower_after_end : regex :=
  rseq [RGroup 1 (RChar (one_of ".!?")); plus is_space;
        RGroup 2 (RChar is_lower)].

Definition capitalize_after_punct (m : rmatch_result) : str :=
  group 1 (m_groups m) ++ lit " " ++ upper (group 2 (m_groups m)).

Definition _improve_sentence_structure (text : str) : str :=
  let sentences := split_on (lit ".") text in
  let improved_sentences := improve_each sentences in
  let text := join (lit ". ") improved_sentences in
  let text := re_sub re_sentence_end_space
                (fun m => group 1 (m_groups m) ++ lit " ") text in
  let text := re_sub re_lower_after_end capitalize_after_punct text in
  text.

Definition re_punct_run : regex := at_least 2 punct.

Definition re_punct_letter : regex :=
  RSeq (RGroup 1 (RChar punct)) (RGroup 2 (RChar is_alpha)).

Definition re_period_punct : regex :=
  rseq [chr "."; star is_space; RGroup 1 (RChar punct)].

Definition re_quoted (q : ascii) : regex :=
  rseq [chr q; star is_space;
        RGroup 1 (lazy_star (fun c => negb (ascii_eqb c q)));
        star is_space; chr q].

Definition _clean_punctuation (text : str) : str :=
  let text := re_sub re_punct_run (const_repl (lit ".")) text in
  let text := re_sub re_punct_letter
                (fun m => group 1 (m_groups m) ++ lit " " ++ group 2 (m_groups m))
                text in
  let text := re_sub re_period_punct (const_repl (lit ". ")) text in
  let text := re_sub (re_quoted dquote)
                (fun m => [dquote] ++ group 1 (m_groups m) ++ [dquote]) text in
  let text := re_sub (re_quoted squote)
                (fun m => [squote] ++ group 1 (m_groups m) ++ [squote]) text in
  text.

Definition filler_patterns : list regex :=
  [ rseq [RWordB;
          RGroup 1 (ralt [word_i "um"; word_i "uh"; word_i "er"; word_i "ah";
                          word_i "like"; word_i "you know"; word_i "so";
                          word_i "well"; word_i "actually"; word_i "basically";
                          word_i "literally"]);
          RWordB];
    rseq [RWordB;
          RGroup 1 (ralt [word_i "kind of"; word_i "sort of"; word_i "type of"]);
          RWordB];
    rseq [RWordB;
          RGroup 1 (ralt [word_i "I mean"; word_i "you see";
                          word_i "let me see"; word_i "let's see"]);
          RWordB];
    rseq [RWordB;
          RGroup 1 (ralt [word_i "right?"; word_i "okay?"; word_i "alright?"]);
          RWordB] ].

Definition _remove_filler_words (text : str) : str :=
  let text :=
    fold_left (fun text pattern => re_sub pattern (const_repl []) text)
              filler_patterns text in
  let text := re_sub re_whitespace (const_repl (lit " ")) text in
  text.

Definition clean_transcript (text : str) : str :=
  match text, strip text with
  | [], _ | _, [] => []
  | _, _ =>
      let cleaned_text := text in
      let cleaned_text := re_sub re_whitespace (const_repl (lit " ")) cleaned_text in
      let cleaned_text := _fix_transcription_artifacts cleaned_text in
      let cleaned_text := _improve_sentence_structure cleaned_text in
      let cleaned_text := _clean_punctuation cleaned_text in
      let cleaned_text := _remove_filler_words cleaned_text in
      strip cleaned_text
  end.

Definition preprocess_audio_transcript (transcript : str) : str :=
  clean_transcript transcript.

Definition re_sentence_break : regex :=
  RSeq (plus (one_of ".!?")) (plus is_space).

Definition split_into_sentences (nltk : Nltk) (text : str) : list str :=
  let sentences :=
    match sent_tokenize nltk with
    | Some tokenize => tokenize text
    | None => re_split re_sentence_break text
    end in
  filter (fun sentence => 10 <? length sentence) (map strip sentences).

(** [word.isalpha()]. *)
Definition isalpha (w : str) : bool :=
  match w with
  | [] => false
  | _ => forallb is_alpha w
  end.

Definition str_in (w : str) (ws : list str) : bool := existsb (str_eqb w) ws.

Definition is_keyword (self : TextProcessor) (w : str) : bool :=
  (3 <? length w) && negb (str_in w (stop_words self)) && isalpha w.

(** The tokens the keyword extractor counts: the whitespace-separated
    words of the lower-cased text without its punctuation characters. *)
Definition keyword_words (text : str) : list str :=
  let text_lower := lower text in
  let text_clean := filter (fun c => negb (is_punctuation c)) text_lower in
  split_ws text_clean.

Definition extract_keywords (self : TextProcessor) (text : str)
           (num_keywords : Z) : list str :=
  let words := keyword_words text in
  let keywords := filter (is_keyword self) words in
  let word_freq := count_freq keywords in
  let sorted_keywords := sorted_desc word_freq in
  map fst (slice_to num_keywords sorted_keywords).

(** The values of the statistics dictionary: [int] counts and [float]
    averages.  A float is given by the exact rational value of the binary
    double, which is finite for every length a text can have; overflow,
    subnormals and the sign of zero are left out. *)
Inductive num : Type :=
| NInt (n : Z)
| NFloat (q : Q).

Definition round_half_even (q : Q) : Z :=
  let f := Qfloor q in
  match Qcompare (q - inject_Z f) (1 # 2) with
  | Lt => f
  | Gt => (f + 1)%Z
  | Eq => if Z.even f then f else (f + 1)%Z
  end.

(** [2 ** k] for an integer exponent of either sign. *)
Definition pow2 (k : Z) : Q :=
  match k with
  | Z0 => 1%Q
  | Zpos p => inject_Z (2 ^ Zpos p)
  | Zneg p => (1 # (2 ^ p))%Q
  end.

(** The double nearest to a rational: 53 significant bits, ties to the
    even significand.  This is the rounding of every float operation. *)
Definition to_double (q : Q) : Q :=
  match Qnum q with
  | Z0 => 0%Q
  | _ =>
      let a := Qabs q in
      let e0 := (Z.log2 (Qnum a) - Z.log2 (Zpos (Qden a)))%Z in
      let e := match Qcompare a (pow2 e0) with
               | Lt => (e0 - 1)%Z
               | _ => e0
               end in
      let m := round_half_even (a * pow2 (52 - e)) in
      let r := Qred (inject_Z m * pow2 (e - 52)) in
      match Qnum q with
      | Zneg _ => Qred (- r)
      | _ => r
      end
  end.

(** [a / b] on two lengths, for [b > 0], as a rational. *)
Definition ratio (a b : nat) : Q :=
  Qred (Z.of_nat a # Pos.of_nat b).

(** [a / b] on two ints, for [b > 0]: true division, correctly rounded. *)
Definition float_div (a b : nat) : Q :=
  to_double (ratio a b).

(** [round(x, 1)] on a float: the decimal nearest to the double's exact
    value, ties to the even tenth, then the double nearest to that
    decimal. *)
Definition round1 (x : Q) : Q :=
  to_double (Qred (round_half_even (x * inject_Z 10) # 10)).

(** [round(v, 1)]: an int is returned as it is, a float is rounded. *)
Definition round_num (v : num) : num :=
  match v with
  | NInt n => NInt n
  | NFloat x => NFloat (round1 x)
  end.

Definition stats_dict := list (string * num).

Fixpoint stats_get (d : stats_dict) (key : string) : option num :=
  match d with
  | [] => None
  | (k, v) :: rest => if String.eqb k key then Some v else stats_get rest key
  end.

Definition sum_lengths (words : list str) : nat :=
  fold_right (fun w acc => length w + acc) 0 words.

Definition create_text_summary_stats (nltk : Nltk) (text : str) : stats_dict :=
  match text with
  | [] => []
  | _ =>
      let words := split_ws text in
      let sentences := split_into_sentences nltk text in
      let paragraphs :=
        map strip
            (filter (fun p => negb (str_eqb (strip p) []))
                    (split_on [nl; nl] text)) in
      let avg_words_per_sentence :=
        match sentences with
        | [] => NInt 0
        | _ => NFloat (float_div (length words) (length sentences))
        end in
      let avg_chars_per_word :=
        match words with
        | [] => NInt 0
        | _ => NFloat (float_div (sum_lengths words) (length words))
        end in
      [ ("word_count", NInt (Z.of_nat (length words)));
        ("sentence_count", NInt (Z.of_nat (length sentences)));
        ("paragraph_count", NInt (Z.of_nat (length paragraphs)));
        ("character_count", NInt (Z.of_nat (length text)));
        ("character_count_no_spaces",
          NInt (Z.of_nat (length (replace (lit " ") [] text))));
        ("avg_words_per_sentence", round_num avg_words_per_sentence);
        ("avg_chars_per_word", round_num avg_chars_per_word);
        ("estimated_reading_time_minutes",
          round_num (NFloat (float_div (length words) 200)));
        ("estimated_speaking_time_minutes",
          round_num (NFloat (float_div (length words) 150))) ]%string
  end.

(** [f"{words[i]} {words[i+1]}".lower() for i in range(len(words) - 1)]. *)
Fixpoint word_pairs (words : list str) : list str :=
  match words with
  | w1 :: ((w2 :: _) as rest) =>
      lower (w1 ++ lit " " ++ w2) :: word_pairs rest
  | _ => []
  end.

Definition sentence_candidates (keywords : list str) (sentence : str)
  : list str :=
  let sentence_lower := lower sentence in
  let keyword_count :=
    length (filter (fun keyword => contains keyword sentence_lower) keywords) in
  if 2 <=? keyword_count
  then filter (fun phrase => existsb (fun keyword => contains keyword phrase)
                                     keywords)
              (word_pairs (split_ws sentence))
  else [].

Definition topic_candidates (self : TextProcessor) (nltk : Nltk) (text : str)
  : list str :=
  let keywords := extract_keywords self text 20 in
  let sentences := split_into_sentences nltk text in
  flat_map (sentence_candidates keywords) sentences.

Definition extract_topics (self : TextProcessor) (nltk : Nltk) (text : str)
           (num_topics : Z) : list str :=
  let topic_freq := count_freq (topic_candidates self nltk text) in
  let sorted_topics := sorted_desc topic_freq in
  map fst (filter (fun item => 1 <? snd item)
                  (slice_to num_topics sorted_topics)).

(** ** json.loads

    The value [json.loads] builds.  A number keeps its lexeme, a string
    the text between its quotes (escape sequences checked, not decoded),
    an object its members in source order. *)

#[local] Unset Elimination Schemes.
Inductive json : Type :=
| JNull
| JBool (b : bool)
| JNumber (lexeme : str)
| JString (raw : str)
| JArray (items : list json)
| JObject (members : list (str * json)).
#[local] Set Elimination Schemes.

Inductive token : Type :=
| TLBracket | TRBracket | TLBrace | TRBrace | TComma | TColon
| TAtom (v : json)
| TString (raw : str).

(** Where the scanner is inside a number: an optional minus sign, an
    integer part without leading zero, an optional fraction, an optional
    exponent. *)
Inductive num_state : Type :=
| NSMinus | NSZero | NSInt | NSDot | NSFrac | NSExp | NSExpSign | NSExpDigits.

Definition num_accepting (st : num_state) : bool :=
  match st with
  | NSZero | NSInt | NSFrac | NSExpDigits => true
  | NSMinus | NSDot | NSExp | NSExpSign => false
  end.

Definition num_step (st : num_state) (c : ascii) : option num_state :=
  match st with
  | NSMinus =>
      if ascii_eqb c "0" then Some NSZero
      else if is_digit c then Some NSInt else None
  | NSZero =>
      if ascii_eqb c "." then Some NSDot
      else if one_of "eE" c then Some NSExp else None
  | NSInt =>
      if is_digit c then Some NSInt
      else if ascii_eqb c "." then Some NSDot
      else if one_of "eE" c then Some NSExp else None
  | NSDot => if is_digit c then Some NSFrac else None
  | NSFrac =>
      if is_digit c then Some NSFrac
      else if one_of "eE" c then Some NSExp else None
  | NSExp =>
      if one_of "+-" c then Some NSExpSign
      else if is_digit c then Some NSExpDigits else None
  | NSExpSign => if is_digit c then Some NSExpDigits else None
  | NSExpDigits => if is_digit c then Some NSExpDigits else None
  end.

Inductive lex_mode : Type :=
| LStart
| LStr (acc : str)
| LStrEsc (acc : str)
| LStrHex (acc : str) (n : nat)
| LNum (st : num_state) (acc : str)
| LWord (expect : str) (tok : token).

Definition is_hex (c : ascii) : bool :=
  is_digit c || one_of "abcdefABCDEF" c.

(** The scanner at the start of a token: the tokens the character
    completes and the mode it leaves the scanner in. *)
Definition start_char (c : ascii) : option (list token * lex_mode) :=
  if one_of " " c || (code c =? 9) || (code c =? 10) || (code c =? 13)
  then Some ([], LStart)
  else if ascii_eqb c "[" then Some ([TLBracket], LStart)
  else if ascii_eqb c "]" then Some ([TRBracket], LStart)
  else if ascii_eqb c "{" then Some ([TLBrace], LStart)
  else if ascii_eqb c "}" then Some ([TRBrace], LStart)
  else if ascii_eqb c "," then Some ([TComma], LStart)
  else if ascii_eqb c ":" then Some ([TColon], LStart)
  else if ascii_eqb c dquote then Some ([], LStr [])
  else if ascii_eqb c "-" then Some ([], LNum NSMinus [c])
  else if ascii_eqb c "0" then Some ([], LNum NSZero [c])
  else if is_digit c then Some ([], LNum NSInt [c])
  else if ascii_eqb c "t" then Some ([], LWord (lit "rue") (TAtom (JBool true)))
  else if ascii_eqb c "f" then Some ([], LWord (lit "alse") (TAtom (JBool false)))
  else if ascii_eqb c "n" then Some ([], LWord (lit "ull") (TAtom JNull))
  else if ascii_eqb c "N"
       then Some ([], LWord (lit "aN") (TAtom (JNumber (lit "NaN"))))
  else if ascii_eqb c "I"
       then Some ([], LWord (lit "nfinity") (TAtom (JNumber (lit "Infinity"))))
  else None.

Definition lex_step (mode : lex_mode) (c : ascii)
  : option (list token * lex_mode) :=
  match mode with
  | LStart => start_char c
  | LStr acc =>
      if ascii_eqb c dquote then Some ([TString (rev acc)], LStart)
      else if ascii_eqb c "\" then Some ([], LStrEsc (c :: acc))
      else if code c <? 32 then None
      else Some ([], LStr (c :: acc))
  | LStrEsc acc =>
      if ascii_eqb c dquote || one_of "\/bfnrt" c then Some ([], LStr (c :: acc))
      else if ascii_eqb c "u" then Some ([], LStrHex (c :: acc) 4)
      else None
  | LStrHex acc n =>
      if is_hex c
      then match n with
           | S (S m) => Some ([], LStrHex (c :: acc) (S m))
           | _ => Some ([], LStr (c :: acc))
           end
      else None
  | LNum st acc =>
      match num_step st c with
      | Some st' => Some ([], LNum st' (c :: acc))
      | None =>
          match st with
          | NSMinus =>
              if ascii_eqb c "I"
              then Some ([], LWord (lit "nfinity")
                                   (TAtom (JNumber (lit "-Infinity"))))
              else None
          | _ =>
              if num_accepting st
              then match start_char c with
                   | Some (toks, mode') =>
                       Some (TAtom (JNumber (rev acc)) :: toks, mode')
                   | None => None
                   end
              else None
          end
      end
  | LWord expect tok =>
      match expect with
      | [e] => if ascii_eqb c e then Some ([tok], LStart) else None
      | e :: rest => if ascii_eqb c e then Some ([], LWord rest tok) else None
      | [] => None
      end
  end.

Fixpoint lex (mode : lex_mode) (s : str) : option (list token) :=
  match s with
  | [] =>
      match mode with
      | LStart => Some []
      | LNum st acc =>
          if num_accepting st then Some [TAtom (JNumber (rev acc))] else None
      | _ => None
      end
  | c :: s' =>
      match lex_step mode c with
      | Some (toks, mode') =>
          match lex mode' s' with
          | Some rest => Some (toks ++ rest)
          | None => None
          end
      | None => None
      end
  end.

(** The containers under construction, innermost first. *)
Inductive frame : Type :=
| FArray (acc : list json)
| FObject (acc : list (str * json)) (key : option str).

Inductive expect : Type :=
| PValue
| PValueOrEnd
| PNext
| PKeyOrEnd
| PKey
| PColon
| PDone (v : json).

(** A value is complete: it goes into the innermost container, or is
    the document. *)
Definition complete (v : json) (stack : list frame)
  : option (expect * list frame) :=
  match stack with
  | [] => Some (PDone v, [])
  | FArray acc :: rest => Some (PNext, FArray (v :: acc) :: rest)
  | FObject acc (Some k) :: rest =>
      Some (PNext, FObject ((k, v) :: acc) None :: rest)
  | FObject _ None :: _ => None
  end.

Definition parse_step (e : expect) (stack : list frame) (t : token)
  : option (expect * list frame) :=
  match e, t, stack with
  | (PValue | PValueOrEnd), TAtom v, _ => complete v stack
  | (PValue | PValueOrEnd), TString s, _ => complete (JString s) stack
  | (PValue | PValueOrEnd), TLBracket, _ =>
      Some (PValueOrEnd, FArray [] :: stack)
  | (PValue | PValueOrEnd), TLBrace, _ =>
      Some (PKeyOrEnd, FObject [] None :: stack)
  | PValueOrEnd, TRBracket, FArray acc :: rest =>
      complete (JArray (rev acc)) rest
  | PNext, TComma, FArray _ :: _ => Some (PValue, stack)
  | PNext, TComma, FObject _ _ :: _ => Some (PKey, stack)
  | PNext, TRBracket, FArray acc :: rest => complete (JArray (rev acc)) rest
  | PNext, TRBrace, FObject acc None :: rest =>
      complete (JObject (rev acc)) rest
  | (PKeyOrEnd | PKey), TString k, FObject acc None :: rest =>
      Some (PColon, FObject acc (Some k) :: rest)
  | PKeyOrEnd, TRBrace, FObject acc None :: rest =>
      complete (JObject (rev acc)) rest
  | PColon, TColon, _ => Some (PValue, stack)
  | _, _, _ => None
  end.

Fixpoint parse (e : expect) (stack : list frame) (toks : list token)
  : option json :=
  match toks with
  | [] => match e with PDone v => Some v | _ => None end
  | t :: rest =>
      match parse_step e stack t with
      | Some (e', stack') => parse e' stack' rest
      | None => None
      end
  end.

(** [json.loads(s)]: [None] stands for [json.JSONDecodeError].  This is
    the decoder within the limits of the interpreter, see [within_limits]
    below. *)
Definition json_loads (s : str) : option json :=
  match lex LStart s with
  | Some toks => parse PValue [] toks
  | None => None
  end.

(** Outside its grammar CPython's decoder gives up in two more ways,
    neither of them a [json.JSONDecodeError], so that the parsers below
    let both through to their callers: with [RecursionError] when arrays
    and objects nest deeper than the recursion limit leaves room for, and
    with [ValueError] on an integer literal of more digits than
    [sys.get_int_max_str_digits()] allows.  Both limits belong to the
    deployment: [recursion_room] is the number of containers, one inside
    the other, that the decoder can enter where the parsers call it, and
    [int_max_str_digits] the digit limit, 0 when the check is off. *)
Record Interpreter : Type := {
  recursion_room : nat;
  int_max_str_digits : nat
}.

Definition opens_container (c : ascii) : bool :=
  ascii_eqb c "[" || ascii_eqb c "{".

(** No run of digits in [s] is longer than [limit]; [run] digits came
    just before [s]. *)
Fixpoint digit_runs_fit (limit run : nat) (s : str) : bool :=
  match s with
  | [] => true
  | c :: rest =>
      if is_digit c
      then (S run <=? limit) && digit_runs_fit limit (S run) rest
      else digit_runs_fit limit 0 rest
  end.

(** A text that cannot take the decoder to either limit: it has no more
    opening brackets and braces than the decoder can enter, and no run
    of digits longer than an integer literal may be. *)
Definition within_limits (py : Interpreter) (text : str) : Prop :=
  length (filter opens_container text) <= recursion_room py /\
  (int_max_str_digits py = 0 \/
   digit_runs_fit (int_max_str_digits py) 0 text = true).

(** An interpreter with room for 100 nested containers and the default
    digit limit. *)
Definition small_interpreter : Interpreter :=
  {| recursion_room := 100; int_max_str_digits := 4300 |}.

(** ** models/quiz_generator.py and models/flashcard_generator.py

    Both parsers return what [json.loads] gave, or the list of
    dictionaries of their fallback; a dictionary with string values is
    a [JObject] of [JString]s.  The [st.warning] call on the error path
    only reports and is left out. *)

Definition json_pattern : regex :=
  rseq [chr "["; star any_char; chr "]"].

Definition record (fields : list (string * str)) : json :=
  JObject (map (fun kv => (lit (fst kv), JString (snd kv))) fields).

Definition _fallback_question_parsing (text : str) : json :=
  let lines := split_on [nl] text in
  let questions :=
    flat_map
      (fun line =>
         let line := strip line in
         match line with
         | [] => []
         | _ =>
             if contains (lit "?") line || endswith (lit ".") line
             then [record
                     [("question", line);
                      ("type", lit "text");
                      ("note", lit "Question extracted from text (formatting may be incomplete)")]%string]
             else []
         end)
      lines in
  JArray (firstn 5 questions).

Definition _parse_quiz_json (json_text : str) : json :=
  let attempt :=
    match re_search json_pattern json_text with
    | Some json_match => json_loads (m_text json_match)
    | None => json_loads json_text
    end in
  match attempt with
  | Some v => v
  | None => _fallback_question_parsing json_text
  end.

Definition unmark (line : str) : str :=
  strip (replace (lit "*") [] (replace (lit "**") [] line)).

Fixpoint line_pairs (lines : list str) : list json :=
  match lines with
  | l1 :: l2 :: rest =>
      let front := unmark l1 in
      let back := unmark l2 in
      match front, back with
      | _ :: _, _ :: _ =>
          record [("front", front);
                  ("back", back);
                  ("type", lit "auto-generated");
                  ("note", lit "Generated from text parsing (may need formatting)")]%string
          :: line_pairs rest
      | _, _ => line_pairs rest
      end
  | _ => []
  end.

Definition _fallback_flashcard_parsing (text : str) : json :=
  let lines :=
    map strip
        (filter (fun line => negb (str_eqb (strip line) []))
                (split_on [nl] text)) in
  JArray (firstn 10 (line_pairs lines)).

Definition _parse_flashcard_json (json_text : str) : json :=
  let attempt :=
    match re_search json_pattern json_text with
    | Some json_match => json_loads (m_text json_match)
    | None => json_loads json_text
    end in
  match attempt with
  | Some v => v
  | None => _fallback_flashcard_parsing json_text
  end.

(** A string in double quotes, for writing JSON text. *)
Definition quoted (s : string) : str := dquote :: lit s ++ [dquote].

(** ** Vocabulary of the statements *)

Definition str_dec : forall a b : str, {a = b} + {a <> b} :=
  list_eq_dec ascii_dec.

(** How often [w] occurs among the words [ws]. *)
Definition frequency (ws : list str) (w : str) : nat := count_occ str_dec ws w.

(** The position of the first occurrence of [w] in [ws] (the length of
    [ws] when there is none). *)
Fixpoint index_of (w : str) (ws : list str) : nat :=
  match ws with
  | [] => 0
  | x :: rest => if str_eqb x w then 0 else S (index_of w rest)
  end.

(** [a] ranks before [b]: it is more frequent, or as frequent and first
    met earlier. *)
Definition ranks_before (ws : list str) (a b : str) : Prop :=
  frequency ws b < frequency ws a \/
  (frequency ws a = frequency ws b /\ index_of a ws < index_of b ws).

(** The order a stable descending sort establishes when its input is
    ordered by [before]: the larger count first, and [before] between
    equal counts. *)
Definition rank (before : str * nat -> str * nat -> Prop)
           (a b : str * nat) : Prop :=
  snd b < snd a \/ (snd a = snd b /\ before a b).

Definition item_before (ws : list str) (a b : str * nat) : Prop :=
  snd b < snd a \/ (snd a = snd b /\ index_of (fst a) ws < index_of (fst b) ws).

(** The distinct words of [ws] with their counts, most frequent first. *)
Definition ranked (ws : list str) : list (str * nat) :=
  sorted_desc (count_freq ws).

Definition first_char_space (s : str) : bool :=
  match s with
  | c :: _ => is_space c
  | [] => false
  end.

(** No whitespace at either end. *)
Definition trimmed (s : str) : Prop :=
  first_char_space s = false /\ first_char_space (rev s) = false.

Definition found (r : regex) (s : str) : bool :=
  match re_search r s with
  | Some _ => true
  | None => false
  end.

Definition has_timestamp (s : str) : bool :=
  found re_timestamp_square s || found re_timestamp_round s.

(** A speaker label anywhere in the text: one of the four roles, an
    optional number and a colon, or a machine-style label. *)
Definition has_speaker_label (s : str) : bool :=
  found (rseq [RWordB;
               ralt [word "Speaker"; word "Student"; word "Professor";
                     word "Lecturer"];
               star is_space; star is_digit; star is_space; chr ":"]) s
  || found (rseq [RWordB;
                  ralt [RSeq (word "SPEAKER_") (plus is_digit);
                        RSeq (word "UNKNOWN_") (plus is_digit)];
                  star is_space; chr ":"]) s.

(** The filler words and phrases the normalizer is to remove. *)
Definition filler_tokens : list str :=
  map lit
    ["um"; "uh"; "er"; "ah"; "like"; "you know"; "so"; "well"; "actually";
     "basically"; "literally"; "kind of"; "sort of"; "type of"; "I mean";
     "you see"; "let me see"; "let's see"; "right?"; "okay?";
     "alright?"]%string.

(** [p] occurs in [s] as a whole token, in any letter case: no word
    character touches it on either side. *)
Fixpoint occurs_as_token (p : str) (prev : option ascii) (s : str) : bool :=
  (negb (opt_word prev)
   && startswith (lower p) (lower s)
   && negb (opt_word (hd_error (skipn (length p) s))))
  || match s with
     | [] => false
     | c :: s' => occurs_as_token p (Some c) s'
     end.

Definition has_filler_token (s : str) : bool :=
  existsb (fun p => occurs_as_token p None s) filler_tokens.

Definition is_record (v : json) : bool :=
  match v with
  | JObject _ => true
  | _ => false
  end.

(** A sequence of records: a list all of whose items are mappings. *)
Definition is_record_sequence (v : json) : bool :=
  match v with
  | JArray items => forallb is_record items
  | _ => false
  end.

(** Two results are the same sequence read under two caps: both are
    lists, and some common length [n] gives the first its length under
    the cap of 5 and the second its length under the cap of 10. *)
Definition same_up_to_cap (quiz flashcards : json) : Prop :=
  exists qs fs n,
    quiz = JArray qs /\ flashcards = JArray fs /\
    length qs = Nat.min 5 n /\ length fs = Nat.min 10 n.

(** The strict stage both parsers start with. *)
Definition strict_parse (json_text : str) : option json :=
  match re_search json_pattern json_text with
  | Some json_match => json_loads (m_text json_match)
  | None => json_loads json_text
  end.

(** Inputs of the worked examples. *)
Definition lecture_line : str :=
  lit "[00:01:15] Speaker 1: Um, so, like, machine learning is, you know, powerful.".

Definition two_sentences : str := lit "One two three. Four five.".

Definition labelled_second_line : str :=
  lit "Welcome everyone." ++ [nl] ++ lit "Speaker 1: hello".

Definition single_card : str :=
  lit "{" ++ quoted "front" ++ lit ": " ++ quoted "Q" ++ lit ", "
      ++ quoted "back" ++ lit ": " ++ quoted "A" ++ lit "}".

Definition single_question : str :=
  lit "{" ++ quoted "question" ++ lit ": " ++ quoted "Q" ++ lit ", "
      ++ quoted "options" ++ lit ": [" ++ quoted "A) x" ++ lit ", "
      ++ quoted "B) y" ++ lit "]}".

Definition question_answer_lines : str :=
  lit "Q: What is X?" ++ [nl] ++ lit "A: X is Y." ++ [nl]
      ++ lit "Q: What is Z?" ++ [nl] ++ lit "A: Z is W.".

(** A Punkt-like tokenizer on the second worked example. *)
Definition punkt_two_sentences : Nltk :=
  MkNltk None (Some (fun _ => [lit "One two three."; lit "Four five."])).

(** What the frequency count holds after the words [ws]: distinct keys,
    namely the words met, each with the number of its occurrences, in
    the order in which the words were first met. *)
Record counted (ws : list str) (d : dict nat) : Prop := MkCounted
  { counted_nodup : NoDup (dict_keys d);
    counted_value : forall w n, In (w, n) d -> n = frequency ws w /\ In w ws;
    counted_keys : forall w, In w ws -> In w (dict_keys d);
    counted_order :
      StronglySorted (fun a b => index_of a ws < index_of b ws) (dict_keys d) }.

(** The distinct phrases among [ws] whose frequency exceeds 1. *)
Definition exceeding (ws : list str) : list str :=
  filter (fun w => 1 <? frequency ws w) (nodup str_dec ws).

Definition three_networks : str :=
  lit "Deep neural networks learn features. Modern neural networks need data. Large neural networks train slowly.".

(** ** Further functions of the cited modules *)

Definition tab : ascii := ascii_of_nat 9.

(** [get_text_insights(text)] of utils/text_processing.py: a dictionary
    of four entries, built by a fresh [TextProcessor]. *)
Record insights : Type := MkInsights
  { insight_stats : stats_dict;
    insight_keywords : list str;
    insight_topics : list str;
    insight_sentences : list str }.

Definition get_text_insights (nltk : Nltk) (text : str) : insights :=
  let processor := TextProcessor_init nltk in
  MkInsights (create_text_summary_stats nltk text)
             (extract_keywords processor text 10)
             (extract_topics processor nltk text 5)
             (slice_to 3 (split_into_sentences nltk text)).

(** The loop of [format_for_display]: the lines completed so far and
    the line being filled, which ends with a space once it holds a
    sentence. *)
Definition display_step (max_line_length : Z) (state : list str * str)
           (sentence : str) : list str * str :=
  let (formatted_lines, current_line) := state in
  match current_line with
  | _ :: _ =>
      if (max_line_length
          <? Z.of_nat (length current_line) + Z.of_nat (length sentence) + 1)%Z
      then (formatted_lines ++ [strip current_line], sentence ++ lit " ")
      else (formatted_lines, current_line ++ sentence ++ lit " ")
  | [] => (formatted_lines, current_line ++ sentence ++ lit " ")
  end.

Definition display_lines (max_line_length : Z) (sentences : list str)
  : list str :=
  let (formatted_lines, current_line) :=
    fold_left (display_step max_line_length) sentences ([], []) in
  match strip current_line with
  | [] => formatted_lines
  | last_line => formatted_lines ++ [last_line]
  end.

Definition format_for_display (nltk : Nltk) (text : str)
           (max_line_length : Z) : str :=
  let sentences := split_into_sentences nltk text in
  join [nl; nl] (display_lines max_line_length sentences).

(** [SpeechToText.get_transcript_summary_stats] of
    models/speech_to_text.py.  The reading time is the quotient itself,
    which the source leaves unrounded. *)
Definition get_transcript_summary_stats (transcript : str) : stats_dict :=
  let words := split_ws transcript in
  let sentences := split_on (lit ".") transcript in
  [ ("word_count", NInt (Z.of_nat (length words)));
    ("sentence_count",
      NInt (Z.of_nat (length (filter (fun s => negb (str_eqb (strip s) []))
                                     sentences))));
    ("character_count", NInt (Z.of_nat (length transcript)));
    ("character_count_no_spaces",
      NInt (Z.of_nat (length (replace (lit " ") [] transcript))));
    ("estimated_reading_time", NFloat (float_div (length words) 200)) ]%string.

(** A flashcard as the export reads it: a dictionary from field names
    to texts; a flashcard set maps each card type to its cards, in the
    order of insertion. *)
Definition card := dict str.
Definition flashcard_set := list (str * list card).

(** [text.replace(newline, '<br>').replace(tab, ' ')]. *)
Definition anki_field (text : str) : str :=
  replace [tab] (lit " ") (replace [nl] (lit "<br>") text).

Definition anki_row (card_type : str) (c : card) : str :=
  anki_field (dict_get c (lit "front") [])
    ++ [tab] ++ anki_field (dict_get c (lit "back") [])
    ++ [tab] ++ card_type ++ [nl].

Definition create_anki_export (cards : flashcard_set) : str :=
  concat (flat_map (fun entry => map (anki_row (fst entry)) (snd entry)) cards).

Definition count_char (c : ascii) (s : str) : nat :=
  length (filter (ascii_eqb c) s).

(** Every whitespace character of [s] is a plain space, and no two of
    them are adjacent. *)
Fixpoint single_spaced (s : str) : bool :=
  match s with
  | [] => true
  | c :: rest =>
      (if is_space c
       then ascii_eqb c space && negb (first_char_space rest)
       else true)
      && single_spaced rest
  end.

(** [w1] and [w2] are consecutive words of [sentence]. *)
Definition consecutive_words (sentence w1 w2 : str) : Prop :=
  exists before after, split_ws sentence = before ++ w1 :: w2 :: after.

Definition is_list (v : json) : bool :=
  match v with
  | JArray _ => true
  | _ => false
  end.

(** The text after the longest run of characters in [p] at its head,
    and the last character of that run ([prev] when it is empty). *)
Fixpoint drop_run (p : ascii -> bool) (s : str) : str :=
  match s with
  | c :: s' => if p c then drop_run p s' else s
  | [] => []
  end.

Fixpoint last_of_run (p : ascii -> bool) (prev : option ascii) (s : str)
  : option ascii :=
  match s with
  | c :: s' => if p c then last_of_run p (Some c) s' else prev
  | [] => prev
  end.

(** The record the quiz fallback makes of a line, and the one the
    flashcard fallback makes of two. *)
Definition question_record (line : str) : json :=
  record [("question", line);
          ("type", lit "text");
          ("note", lit "Question extracted from text (formatting may be incomplete)")]%string.

Definition card_record (sides : str * str) : json :=
  record [("front", fst sides);
          ("back", snd sides);
          ("type", lit "auto-generated");
          ("note", lit "Generated from text parsing (may need formatting)")]%string.

(** The lines the quiz fallback keeps: not empty, and with a question
    mark somewhere or a period at the end. *)
Definition keeps_question (line : str) : bool :=
  negb (str_eqb line [])
  && (contains (lit "?") line || endswith (lit ".") line).

(** The lines of a text two by two, in order; a last line without a
    partner is left out. *)
Fixpoint pair_up (lines : list str) : list (str * str) :=
  match lines with
  | l1 :: l2 :: rest => (l1, l2) :: pair_up rest
  | _ => []
  end.

Definition both_sides (side : str * str) : bool :=
  negb (str_eqb (fst side) []) && negb (str_eqb (snd side) []).

(** The fronts and backs the flashcard fallback finds in a text: its
    non-blank lines, stripped, taken two by two, each without its
    asterisks and stripped again, where neither side is left empty. *)
Definition card_sides (text : str) : list (str * str) :=
  let lines :=
    map strip
        (filter (fun line => negb (str_eqb (strip line) []))
                (split_on [nl] text)) in
  filter both_sides
         (map (fun pair => (unmark (fst pair), unmark (snd pair)))
              (pair_up lines)).

(** The end of a match of [json_pattern] on [s]: a closing bracket at
    the head of what the repetition left. *)
Definition close_bracket (s : str) (prev : option ascii) (t : str)
  : option rmatch_result :=
  match t with
  | d :: t' =>
      if ascii_eqb "]" d
      then Some (MkMatch (firstn (length s - length t') s) t' [])
      else None
  | [] => None
  end.

(** The text holds an opening bracket and, somewhere after it, a
    closing one. *)
Definition bracketed (text : str) : Prop :=
  exists before inside after, text = before ++ "["%char :: inside ++ "]"%char :: after.

(** The outermost container under construction is an array ([arr]) or
    an object (not [arr]). *)
Definition frame_is (arr : bool) (f : frame) : bool :=
  match f with
  | FArray _ => arr
  | FObject _ _ => negb arr
  end.

Fixpoint bottom_is (arr : bool) (stack : list frame) : bool :=
  match stack with
  | [] => false
  | [f] => frame_is arr f
  | _ :: rest => bottom_is arr rest
  end.

Definition not_done (e : expect) : bool :=
  match e with
  | PDone _ => false
  | _ => true
  end.

Definition kind_is (arr : bool) (v : json) : bool :=
  match v with
  | JArray _ => arr
  | JObject _ => negb arr
  | _ => false
  end.

(** The atoms the scanner makes are numbers, booleans and null. *)
Definition token_scalar (t : token) : bool :=
  match t with
  | TAtom (JArray _) | TAtom (JObject _) | TAtom (JString _) => false
  | _ => true
  end.

Definition mode_scalar (mode : lex_mode) : bool :=
  match mode with
  | LWord _ (TAtom v) => token_scalar (TAtom v)
  | LWord _ _ => false
  | _ => true
  end.

(** The line being filled once it holds the sentences [group]: each
    followed by a space. *)
Definition line_of (group : list str) : str :=
  concat (map (fun sentence => sentence ++ lit " ") group).

(** A line of two sentences or more fits strictly within the width. *)
Definition fits (max_line_length : Z) (group : list str) : Prop :=
  2 <= length group ->
  (Z.of_nat (length (join (lit " ") group)) < max_line_length)%Z.

(** * Properties *)

Lemma str_eqb_eq (a b : str) : str_eqb a b = true <-> a = b.
Proof.
  unfold str_eqb. destruct (list_eq_dec ascii_dec a b); split; congruence.
Qed.

Lemma str_eqb_refl (a : str) : str_eqb a a = true.
Proof. now apply str_eqb_eq. Qed.

Lemma str_eqb_neq (a b : str) : str_eqb a b = false <-> a <> b.
Proof.
  unfold str_eqb. destruct (list_eq_dec ascii_dec a b); split; congruence.
Qed.

(** ** Statistics *)

(** C2, as stated, fails: the statistics of the empty string have no
    [word_count] field, so it is not zero. *)
Lemma stats_empty_no_word_count :
  stats_get (create_text_summary_stats no_nltk (lit "")) "word_count"
  <> Some (NInt 0).
Proof. vm_compute. discriminate. Qed.

(** C2, amended: on the empty string the statistics computer returns
    the empty dictionary, whatever the deployment; none of the numeric
    fields is present and no quotient is formed. *)
Theorem stats_empty_is_empty_dict (nltk : Nltk) :
  create_text_summary_stats nltk (lit "") = [] /\
  forall key, stats_get (create_text_summary_stats nltk (lit "")) key = None.
Proof. split; [reflexivity | intros key; reflexivity]. Qed.

(** C6, as stated, fails: the second sentence, [Four five.], has ten
    characters and is filtered out, so the sentence count is not 2. *)
Lemma stats_two_sentences_count_not_2 :
  stats_get (create_text_summary_stats no_nltk two_sentences) "sentence_count"
  <> Some (NInt 2).
Proof. vm_compute. discriminate. Qed.

(** C6, amended: on [One two three. Four five.] the statistics are 5
    words, 1 sentence and 5.0 words per sentence, with the regular
    expression segmenter and with any tokenizer that splits the text
    into its two sentences. *)
Theorem stats_two_sentences (nltk : Nltk)
  (Htok : match sent_tokenize nltk with
          | Some tokenize =>
              tokenize two_sentences = [lit "One two three."; lit "Four five."]
          | None => True
          end) :
  let stats := create_text_summary_stats nltk two_sentences in
  stats_get stats "word_count" = Some (NInt 5) /\
  stats_get stats "sentence_count" = Some (NInt 1) /\
  stats_get stats "avg_words_per_sentence" = Some (NFloat 5).
Proof.
  assert (Hs : split_into_sentences nltk two_sentences = [lit "One two three"]
               \/ split_into_sentences nltk two_sentences = [lit "One two three."]).
  { unfold split_into_sentences. destruct (sent_tokenize nltk) as [tok|].
    - right. rewrite Htok. reflexivity.
    - left. vm_compute. reflexivity. }
  cbv zeta. unfold create_text_summary_stats.
  change two_sentences with (lit "One two three. Four five.") at 1 4 7.
  cbn [lit list_ascii_of_string].
  destruct Hs as [Hs | Hs]; rewrite Hs; repeat split; vm_compute; reflexivity.
Qed.

Lemma stats_two_sentences_witness :
  let stats := create_text_summary_stats punkt_two_sentences two_sentences in
  stats_get stats "word_count" = Some (NInt 5) /\
  stats_get stats "sentence_count" = Some (NInt 1) /\
  stats_get stats "avg_words_per_sentence" = Some (NFloat 5).
Proof. apply (stats_two_sentences punkt_two_sentences). reflexivity. Defined.

(** ** The transcript normalizer *)

Lemma lstrip_head (s : str) : first_char_space (lstrip s) = false.
Proof.
  induction s as [|c s IH]; [reflexivity|]. cbn [lstrip].
  destruct (is_space c) eqn:E; [exact IH|]. cbn [first_char_space]. exact E.
Qed.

Lemma lstrip_keeps_last (l : str) (c : ascii) :
  is_space c = false -> exists kept, lstrip (l ++ [c]) = kept ++ [c].
Proof.
  intros Hc. induction l as [|x l IH]; cbn [app lstrip].
  - rewrite Hc. now exists [].
  - destruct (is_space x); [exact IH|]. now exists (x :: l).
Qed.

Lemma strip_trimmed (s : str) : trimmed (strip s).
Proof.
  unfold trimmed, strip, rstrip. split.
  - pose proof (lstrip_head s) as Hh.
    destruct (lstrip s) as [|c t]; [reflexivity|].
    cbn [first_char_space] in Hh. cbn [rev].
    destruct (@lstrip_keeps_last (rev t) c Hh) as [kept ->].
    rewrite rev_app_distr. cbn [rev app first_char_space]. exact Hh.
  - rewrite rev_involutive. apply lstrip_head.
Qed.

(** X1: the part of the transcript invariant that holds of every input: the
    normalizer's output has no whitespace at either end. *)
Lemma clean_transcript_trimmed (text : str) : trimmed (clean_transcript text).
Proof.
  unfold clean_transcript.
  destruct text as [|c text]; [now split|].
  destruct (strip (c :: text)); [now split|]. apply strip_trimmed.
Qed.

Lemma clean_lecture_line :
  clean_transcript lecture_line
  = lit "Speaker 1: , , , machine learning is, , powerful".
Proof. vm_compute. reflexivity. Qed.

(** C5, as stated, fails: the normalized example is not
    [Machine learning is powerful.] *)
Lemma clean_lecture_line_not_spec :
  clean_transcript lecture_line <> lit "Machine learning is powerful.".
Proof. rewrite clean_lecture_line. vm_compute. discriminate. Qed.

(** C5, amended: normalizing the example removes the timestamp and the
    filler words and keeps the commas that delimited them: the output
    contains [, , , machine learning is, , powerful], no timestamp and
    no filler token, and has no whitespace at its ends. *)
Theorem clean_lecture_line_keeps_commas :
  exists before after,
    clean_transcript lecture_line
    = before ++ lit ", , , machine learning is, , powerful" ++ after /\
    has_timestamp (clean_transcript lecture_line) = false /\
    has_filler_token (clean_transcript lecture_line) = false /\
    trimmed (clean_transcript lecture_line).
Proof.
  exists (lit "Speaker 1: "), [].
  rewrite clean_lecture_line.
  repeat split; vm_compute; reflexivity.
Qed.

(** C4: normalizing twice is not normalizing once.  The first pass
    capitalizes [um hello] and then removes the filler, leaving [hello];
    the second pass capitalizes that. *)
Theorem clean_transcript_not_idempotent :
  clean_transcript (lit "um hello") = lit "hello" /\
  clean_transcript (clean_transcript (lit "um hello")) = lit "Hello" /\
  clean_transcript (clean_transcript (lit "um hello"))
  <> clean_transcript (lit "um hello").
Proof.
  assert (H1 : clean_transcript (lit "um hello") = lit "hello")
    by (vm_compute; reflexivity).
  assert (H2 : clean_transcript (lit "hello") = lit "Hello")
    by (vm_compute; reflexivity).
  rewrite H1, H2. repeat split. vm_compute. discriminate.
Qed.

(** C3: the normalizer's output can carry a speaker label, a filler
    token and a timestamp.  A label on a second line is no longer at a
    line start once the whitespace runs, line breaks included, have
    been collapsed; [okay?] at the end of the text is followed by no
    word boundary; a filler phrase and a timestamp can be put together
    by the removal of what separated their parts. *)
Theorem clean_transcript_leaves_markup :
  (clean_transcript labelled_second_line
   = lit "Welcome everyone. Speaker 1: hello" /\
   has_speaker_label (clean_transcript labelled_second_line) = true) /\
  (clean_transcript (lit "That is it, okay?") = lit "That is it, okay?" /\
   has_filler_token (clean_transcript (lit "That is it, okay?")) = true) /\
  (clean_transcript (lit "kind so of") = lit "Kind of" /\
   has_filler_token (clean_transcript (lit "kind so of")) = true) /\
  (clean_transcript (lit "[00 :01 :15] hello") = lit "[00:01:15] hello" /\
   has_timestamp (clean_transcript (lit "[00 :01 :15] hello")) = true).
Proof. repeat split; vm_compute; reflexivity. Qed.

(** ** The response parsers *)

(** C1: on a reply that is a single JSON object, not an array, both
    parsers return the mapping itself; when the object holds a list,
    that inner list is what they return.  Neither is a sequence of
    records. *)
Theorem parsers_return_non_sequences :
  (_parse_flashcard_json single_card
   = JObject [(lit "front", JString (lit "Q")); (lit "back", JString (lit "A"))] /\
   is_record_sequence (_parse_flashcard_json single_card) = false) /\
  (_parse_quiz_json single_card = _parse_flashcard_json single_card) /\
  (_parse_quiz_json single_question
   = JArray [JString (lit "A) x"); JString (lit "B) y")] /\
   is_record_sequence (_parse_quiz_json single_question) = false) /\
  (_parse_quiz_json (lit "42") = JNumber (lit "42")).
Proof. repeat split; vm_compute; reflexivity. Qed.

Lemma quiz_question_answer_lines :
  exists q1 q2 q3 q4,
    _parse_quiz_json question_answer_lines = JArray [q1; q2; q3; q4].
Proof. vm_compute. do 4 eexists. reflexivity. Qed.

Lemma flashcard_question_answer_lines :
  exists c1 c2,
    _parse_flashcard_json question_answer_lines = JArray [c1; c2].
Proof. vm_compute. do 2 eexists. reflexivity. Qed.

(** C9, as stated, fails: on four lines of questions and answers the
    quiz parser returns four records, one per line, and the flashcard
    parser two, one per pair of lines; no common sequence gives both
    under the caps of 5 and 10. *)
Lemma parsers_differ_on_question_answer_lines :
  ~ same_up_to_cap (_parse_quiz_json question_answer_lines)
                   (_parse_flashcard_json question_answer_lines).
Proof.
  destruct quiz_question_answer_lines as (q1 & q2 & q3 & q4 & Hq).
  destruct flashcard_question_answer_lines as (c1 & c2 & Hf).
  rewrite Hq, Hf. intros (qs & fs & n & Eq & Ef & Lq & Lf).
  injection Eq as <-. injection Ef as <-. cbn [length] in Lq, Lf. lia.
Qed.

(** ** Lists, dictionaries and the frequency count *)

Section ListFacts.
Variables (A B : Type).

Lemma StronglySorted_impl (R R' : A -> A -> Prop) (l : list A) :
  (forall a b, In a l -> In b l -> R a b -> R' a b) ->
  StronglySorted R l -> StronglySorted R' l.
Proof.
  induction l as [|x l IH]; intros Himp Hs; [constructor|].
  inversion Hs as [|? ? Hl Hx]; subst. constructor.
  - apply IH; [|exact Hl]. intros a b Ha Hb. apply Himp; now right.
  - rewrite Forall_forall in *. intros b Hb.
    apply Himp; [now left | now right | now apply Hx].
Qed.

Lemma StronglySorted_map (f : A -> B) (R : A -> A -> Prop)
      (R' : B -> B -> Prop) (l : list A) :
  (forall a b, In a l -> In b l -> R a b -> R' (f a) (f b)) ->
  StronglySorted R l -> StronglySorted R' (map f l).
Proof.
  induction l as [|x l IH]; intros Himp Hs; [constructor|].
  inversion Hs as [|? ? Hl Hx]; subst. cbn [map]. constructor.
  - apply IH; [|exact Hl]. intros a b Ha Hb. apply Himp; now right.
  - rewrite Forall_forall in *. intros b Hb.
    apply in_map_iff in Hb as (a & <- & Ha).
    apply Himp; [now left | now right | now apply Hx].
Qed.

Lemma StronglySorted_map_inv (f : A -> B) (R' : B -> B -> Prop)
      (l : list A) :
  StronglySorted R' (map f l) ->
  StronglySorted (fun a b => R' (f a) (f b)) l.
Proof.
  induction l as [|x l IH]; intros Hs; [constructor|].
  cbn [map] in Hs. inversion Hs as [|? ? Hl Hx]; subst. constructor.
  - now apply IH.
  - rewrite Forall_forall in *. intros b Hb. apply Hx. now apply in_map.
Qed.

Lemma StronglySorted_snoc (R : A -> A -> Prop) (l : list A) (x : A) :
  StronglySorted R l -> Forall (fun a => R a x) l ->
  StronglySorted R (l ++ [x]).
Proof.
  induction l as [|y l IH]; intros Hs Hx; cbn [app].
  - constructor; constructor.
  - inversion Hs as [|? ? Hl Hy]; subst.
    inversion Hx as [|? ? Hyx Hlx]; subst. constructor.
    + now apply IH.
    + apply Forall_app. split; [exact Hy | now constructor].
Qed.

Lemma StronglySorted_firstn (R : A -> A -> Prop) (n : nat) (l : list A) :
  StronglySorted R l -> StronglySorted R (firstn n l).
Proof.
  revert n. induction l as [|x l IH]; intros [|n] Hs; cbn [firstn];
    try constructor.
  - inversion Hs; subst. now apply IH.
  - inversion Hs as [|? ? Hl Hx]; subst.
    rewrite Forall_forall in *. intros b Hb. apply Hx.
    rewrite <- (firstn_skipn n l). apply in_or_app. now left.
Qed.

Lemma In_firstn (n : nat) (l : list A) (x : A) :
  In x (firstn n l) -> In x l.
Proof.
  intros H. rewrite <- (firstn_skipn n l). apply in_or_app. now left.
Qed.

Lemma NoDup_map_firstn (f : A -> B) (n : nat) (l : list A) :
  NoDup (map f l) -> NoDup (map f (firstn n l)).
Proof.
  intros H. rewrite <- (firstn_skipn n l), map_app in H.
  now apply NoDup_app_remove_r in H.
Qed.

Lemma filter_none (p : A -> bool) (l : list A) :
  (forall a, In a l -> p a = false) -> filter p l = [].
Proof.
  induction l as [|x l IH]; intros H; [reflexivity|]. cbn [filter].
  rewrite (H x) by now left. apply IH. intros a Ha. apply H. now right.
Qed.

(** On a list ordered so that whatever comes before an element that
    passes [p] passes it too, filtering and truncating commute. *)
Lemma filter_firstn_sorted (R : A -> A -> Prop) (p : A -> bool)
      (n : nat) (l : list A) :
  (forall a b, R a b -> p b = true -> p a = true) ->
  StronglySorted R l ->
  filter p (firstn n l) = firstn n (filter p l).
Proof.
  intros Hmono. revert n.
  induction l as [|x l IH]; intros n Hs; [now destruct n|].
  destruct n as [|n]; [reflexivity|].
  inversion Hs as [|? ? Hl Hx]; subst.
  cbn [firstn filter]. destruct (p x) eqn:Hpx.
  - cbn [firstn]. f_equal. now apply IH.
  - assert (Hnone : forall a, In a l -> p a = false).
    { intros a Ha. destruct (p a) eqn:Hpa; [|reflexivity].
      rewrite Forall_forall in Hx. rewrite <- Hpx. symmetry.
      apply (Hmono x a); [now apply Hx | exact Hpa]. }
    rewrite (filter_none p l Hnone).
    rewrite filter_none; [now destruct n|].
    intros a Ha. apply Hnone. now apply In_firstn in Ha.
Qed.

Lemma slice_to_firstn (k : Z) (l : list A) :
  exists n, slice_to k l = firstn n l.
Proof. unfold slice_to. destruct (k <? 0)%Z; eexists; reflexivity. Qed.

Lemma slice_to_nonneg (k : Z) (l : list A) :
  (0 <= k)%Z -> slice_to k l = firstn (Z.to_nat k) l.
Proof.
  intros Hk. unfold slice_to. destruct (Z.ltb_spec k 0); [lia | reflexivity].
Qed.
End ListFacts.

Lemma index_of_in_app (w : str) (ws l : list str) :
  In w ws -> index_of w (ws ++ l) = index_of w ws.
Proof.
  induction ws as [|x ws IH]; intros Hin; [contradiction|].
  cbn [app index_of]. destruct (str_eqb x w) eqn:E; [reflexivity|].
  f_equal. apply IH. destruct Hin as [-> | H]; [|exact H].
  now rewrite str_eqb_refl in E.
Qed.

Lemma index_of_notin_snoc (w : str) (ws : list str) :
  ~ In w ws -> index_of w (ws ++ [w]) = length ws.
Proof.
  induction ws as [|x ws IH]; intros Hnin; cbn [app index_of length].
  - now rewrite str_eqb_refl.
  - destruct (str_eqb x w) eqn:E.
    + apply str_eqb_eq in E. subst. exfalso. apply Hnin. now left.
    + f_equal. apply IH. intros H. apply Hnin. now right.
Qed.

Lemma index_of_lt_length (w : str) (ws : list str) :
  In w ws -> index_of w ws < length ws.
Proof.
  induction ws as [|x ws IH]; intros Hin; [contradiction|].
  cbn [index_of length]. destruct (str_eqb x w) eqn:E; [lia|].
  destruct Hin as [-> | H]; [now rewrite str_eqb_refl in E|].
  specialize (IH H). lia.
Qed.

Lemma frequency_snoc_same (ws : list str) (w : str) :
  frequency (ws ++ [w]) w = frequency ws w + 1.
Proof.
  unfold frequency. rewrite count_occ_app. cbn [count_occ].
  destruct (str_dec w w); [reflexivity | congruence].
Qed.

Lemma frequency_snoc_other (ws : list str) (w w' : str) :
  w <> w' -> frequency (ws ++ [w]) w' = frequency ws w'.
Proof.
  intros Hne. unfold frequency. rewrite count_occ_app. cbn [count_occ].
  destruct (str_dec w w'); [congruence | lia].
Qed.

Lemma frequency_filter (f : str -> bool) (ws : list str) (w : str) :
  f w = true -> frequency (filter f ws) w = frequency ws w.
Proof.
  intros Hf. unfold frequency.
  induction ws as [|x ws IH]; [reflexivity|]. cbn [filter count_occ].
  destruct (str_dec x w) as [-> | Hne].
  - rewrite Hf. cbn [count_occ]. destruct (str_dec w w); [|congruence].
    now rewrite IH.
  - destruct (f x); [|exact IH]. cbn [count_occ].
    destruct (str_dec x w); [congruence | exact IH].
Qed.


Section DictFacts.
Variable V : Type.

Lemma dict_set_absent (d : dict V) (k : str) (v : V) :
  ~ In k (dict_keys d) -> dict_set d k v = d ++ [(k, v)].
Proof.
  induction d as [|[k0 v0] d IH]; intros Hnin; [reflexivity|].
  cbn [dict_set app]. destruct (str_eqb k0 k) eqn:E.
  - apply str_eqb_eq in E. subst. exfalso. apply Hnin. now left.
  - f_equal. apply IH. intros H. apply Hnin. now right.
Qed.

(** Assigning to a key that is present changes the value of its first
    entry, in place. *)
Lemma dict_set_present (d : dict V) (k : str) (v default : V) :
  In k (dict_keys d) ->
  exists l1 l2,
    d = l1 ++ (k, dict_get d k default) :: l2 /\
    dict_set d k v = l1 ++ (k, v) :: l2.
Proof.
  induction d as [|[k0 v0] d IH]; intros Hin; [contradiction|].
  cbn [dict_set dict_get]. destruct (str_eqb k0 k) eqn:E.
  - apply str_eqb_eq in E. subst. exists [], d. split; reflexivity.
  - destruct Hin as [Heq | Hin].
    + cbn [fst] in Heq. subst. now rewrite str_eqb_refl in E.
    + destruct (IH Hin) as (l1 & l2 & Hd & Hset).
      exists ((k0, v0) :: l1), l2. cbn [app]. split; f_equal; assumption.
Qed.
End DictFacts.

Section Counting.

Lemma dict_get_absent (d : dict nat) (k : str) (default : nat) :
  ~ In k (dict_keys d) -> dict_get d k default = default.
Proof.
  induction d as [|[k0 v0] d IH]; intros Hnin; [reflexivity|].
  cbn [dict_get]. destruct (str_eqb k0 k) eqn:E.
  - apply str_eqb_eq in E. subst. exfalso. apply Hnin. now left.
  - apply IH. intros H. apply Hnin. now right.
Qed.

Lemma dict_keys_app (d1 d2 : dict nat) :
  dict_keys (d1 ++ d2) = dict_keys d1 ++ dict_keys d2.
Proof. apply map_app. Qed.

Lemma counted_key_in (ws : list str) (d : dict nat) (w : str) :
  counted ws d -> In w (dict_keys d) -> In w ws.
Proof.
  intros Hc Hin. apply in_map_iff in Hin as ([w' n] & <- & Hin).
  now apply (counted_value Hc) in Hin.
Qed.

Lemma counted_nil : counted [] [].
Proof.
  constructor; cbn; try constructor; intros; contradiction.
Qed.

Lemma count_step_present (ws : list str) (l1 l2 : dict nat) (w : str)
      (v0 : nat) :
  counted ws (l1 ++ (w, v0) :: l2) ->
  counted (ws ++ [w]) (l1 ++ (w, v0 + 1) :: l2).
Proof.
  intros Hc.
  assert (Hkeys : forall v, dict_keys (l1 ++ (w, v) :: l2)
                            = dict_keys l1 ++ w :: dict_keys l2).
  { intros v. now rewrite dict_keys_app. }
  pose proof (counted_nodup Hc) as Hnd. rewrite Hkeys in Hnd.
  pose proof (NoDup_remove_2 _ _ _ Hnd) as Hw.
  assert (Hw0 : v0 = frequency ws w /\ In w ws).
  { apply (counted_value Hc). apply in_or_app. right. now left. }
  assert (Hother : forall w' n, In (w', n) (l1 ++ l2) ->
                                n = frequency (ws ++ [w]) w' /\ In w' (ws ++ [w])).
  { intros w' n Hin.
    assert (Hne : w <> w').
    { intros ->. apply Hw. rewrite <- dict_keys_app.
      apply in_map_iff. now exists (w', n). }
    rewrite (frequency_snoc_other ws Hne).
    assert (Hold : In (w', n) (l1 ++ (w, v0) :: l2)).
    { apply in_app_or in Hin. apply in_or_app.
      destruct Hin; [now left | right; now right]. }
    apply (counted_value Hc) in Hold as [-> Hin']. split; [reflexivity|].
    apply in_or_app. now left. }
  constructor.
  - now rewrite Hkeys.
  - intros w' n Hin. apply in_app_or in Hin as [Hin | [Heq | Hin]].
    + apply Hother. apply in_or_app. now left.
    + injection Heq as <- <-. rewrite frequency_snoc_same.
      destruct Hw0 as [-> _]. split; [reflexivity|].
      apply in_or_app. right. now left.
    + apply Hother. apply in_or_app. now right.
  - intros w' Hin. rewrite Hkeys, <- (Hkeys v0).
    apply in_app_or in Hin as [Hin | [<- | []]].
    + now apply (counted_keys Hc).
    + now apply (counted_keys Hc).
  - rewrite Hkeys, <- (Hkeys v0).
    apply StronglySorted_impl with (2 := counted_order Hc).
    intros a b Ha Hb Hlt.
    rewrite !index_of_in_app by (eapply counted_key_in; eassumption).
    exact Hlt.
Qed.

Lemma count_step_absent (ws : list str) (d : dict nat) (w : str) :
  counted ws d -> ~ In w (dict_keys d) ->
  counted (ws ++ [w]) (d ++ [(w, 0 + 1)]).
Proof.
  intros Hc Hnin.
  assert (Hnw : ~ In w ws).
  { intros H. apply Hnin. now apply (counted_keys Hc). }
  constructor.
  - rewrite dict_keys_app. cbn.
    apply Permutation_NoDup with (l := w :: dict_keys d).
    + apply Permutation_cons_append.
    + constructor; [exact Hnin | exact (counted_nodup Hc)].
  - intros w' n Hin. apply in_app_or in Hin as [Hin | [Heq | []]].
    + apply (counted_value Hc) in Hin as [-> Hin].
      assert (Hne : w <> w') by (intros ->; contradiction).
      rewrite (frequency_snoc_other ws Hne). split; [reflexivity|].
      apply in_or_app. now left.
    + injection Heq as <- <-. rewrite frequency_snoc_same.
      unfold frequency. rewrite (proj1 (count_occ_not_In str_dec ws w) Hnw).
      split; [reflexivity|]. apply in_or_app. right. now left.
  - intros w' Hin. rewrite dict_keys_app. apply in_or_app.
    apply in_app_or in Hin as [Hin | [<- | []]].
    + left. now apply (counted_keys Hc).
    + right. now left.
  - rewrite dict_keys_app. change (dict_keys [(w, 0 + 1)]) with [w].
    apply StronglySorted_snoc.
    + apply StronglySorted_impl with (2 := counted_order Hc).
      intros a b Ha Hb Hlt.
      rewrite !index_of_in_app by (eapply counted_key_in; eassumption).
      exact Hlt.
    + apply Forall_forall. intros a Ha.
      pose proof (@counted_key_in ws d a Hc Ha) as Hin.
      rewrite (@index_of_in_app a ws [w] Hin), (@index_of_notin_snoc w ws Hnw).
      now apply index_of_lt_length.
Qed.

Lemma count_step_counted (ws : list str) (d : dict nat) (w : str) :
  counted ws d -> counted (ws ++ [w]) (count_step d w).
Proof.
  intros Hc. unfold count_step.
  destruct (in_dec str_dec w (dict_keys d)) as [Hin | Hnin].
  - destruct (@dict_set_present nat d w (dict_get d w 0 + 1) 0 Hin)
      as (l1 & l2 & Hd & Hset).
    rewrite Hset. apply count_step_present. now rewrite <- Hd.
  - rewrite (@dict_get_absent d w 0 Hnin), (@dict_set_absent nat d w (0 + 1) Hnin).
    now apply count_step_absent.
Qed.

Theorem count_freq_counted (ws : list str) : counted ws (count_freq ws).
Proof.
  induction ws as [|w ws IH] using rev_ind; [exact counted_nil|].
  unfold count_freq. rewrite fold_left_app. cbn [fold_left].
  now apply count_step_counted.
Qed.
End Counting.

(** ** The stable sort by descending count *)

Lemma insert_desc_perm (x : str * nat) (l : list (str * nat)) :
  Permutation (insert_desc x l) (x :: l).
Proof.
  induction l as [|y l IH]; cbn [insert_desc]; [reflexivity|].
  destruct (snd x <? snd y); [|reflexivity].
  rewrite IH. apply perm_swap.
Qed.

Lemma sorted_desc_perm (l : list (str * nat)) : Permutation (sorted_desc l) l.
Proof.
  induction l as [|x l IH]; cbn [sorted_desc fold_right]; [reflexivity|].
  rewrite insert_desc_perm. now constructor.
Qed.

Section StableSort.
Variable before : str * nat -> str * nat -> Prop.

Lemma insert_desc_sorted (x : str * nat) (l : list (str * nat)) :
  StronglySorted (rank before) l -> Forall (before x) l ->
  StronglySorted (rank before) (insert_desc x l).
Proof.
  induction l as [|y l IH]; intros Hs Hx; cbn [insert_desc].
  - constructor; constructor.
  - inversion Hs as [|? ? Hl Hy]; subst.
    inversion Hx as [|? ? Hxy Hxl]; subst.
    destruct (Nat.ltb_spec (snd x) (snd y)) as [Hlt | Hge].
    + constructor; [now apply IH|].
      apply Forall_forall. intros z Hz.
      apply (Permutation_in _ (insert_desc_perm x l)) in Hz.
      destruct Hz as [<- | Hz]; [now left|].
      rewrite Forall_forall in Hy. now apply Hy.
    + constructor; [exact Hs|].
      apply Forall_forall. intros z Hz.
      assert (Hzy : snd z <= snd y).
      { destruct Hz as [<- | Hz]; [lia|].
        rewrite Forall_forall in Hy. destruct (Hy z Hz) as [H | [H _]]; lia. }
      assert (Hxz : before x z).
      { rewrite Forall_forall in Hx. now apply Hx. }
      unfold rank. destruct (Nat.eq_dec (snd x) (snd z)); [right | left].
      * now split.
      * lia.
Qed.

Lemma sorted_desc_sorted (l : list (str * nat)) :
  StronglySorted before l -> StronglySorted (rank before) (sorted_desc l).
Proof.
  induction l as [|x l IH]; intros Hs; cbn [sorted_desc fold_right].
  - constructor.
  - inversion Hs as [|? ? Hl Hx]; subst.
    apply insert_desc_sorted; [now apply IH|].
    apply Forall_forall. intros z Hz.
    apply (Permutation_in _ (sorted_desc_perm l)) in Hz.
    rewrite Forall_forall in Hx. now apply Hx.
Qed.
End StableSort.

(** ** The ranking both extractors build *)

Lemma ranked_perm (ws : list str) : Permutation (ranked ws) (count_freq ws).
Proof. apply sorted_desc_perm. Qed.

Lemma ranked_nodup (ws : list str) : NoDup (map fst (ranked ws)).
Proof.
  apply Permutation_NoDup with (l := dict_keys (count_freq ws)).
  - apply Permutation_map. symmetry. apply ranked_perm.
  - exact (counted_nodup (count_freq_counted ws)).
Qed.

Lemma ranked_value (ws : list str) (w : str) (n : nat) :
  In (w, n) (ranked ws) -> n = frequency ws w /\ In w ws.
Proof.
  intros Hin. apply (Permutation_in _ (ranked_perm ws)) in Hin.
  now apply (counted_value (count_freq_counted ws)).
Qed.

Lemma ranked_keys (ws : list str) (w : str) :
  In w ws -> In w (map fst (ranked ws)).
Proof.
  intros Hin. apply (counted_keys (count_freq_counted ws)) in Hin.
  eapply Permutation_in; [|exact Hin].
  apply Permutation_map. symmetry. apply ranked_perm.
Qed.

Lemma ranked_sorted (ws : list str) :
  StronglySorted (item_before ws) (ranked ws).
Proof.
  apply (sorted_desc_sorted
           (before := fun a b => index_of (fst a) ws < index_of (fst b) ws)).
  apply StronglySorted_map_inv
    with (R' := fun a b => index_of a ws < index_of b ws).
  exact (counted_order (count_freq_counted ws)).
Qed.

(** The keys of an ordered selection of the ranking, in terms of the
    words alone. *)
Lemma ranked_selection_sorted (ws : list str) (l : list (str * nat)) :
  (forall item, In item l -> In item (ranked ws)) ->
  StronglySorted (item_before ws) l ->
  StronglySorted (ranks_before ws) (map fst l).
Proof.
  intros Hsub. apply StronglySorted_map.
  intros [a na] [b nb] Ha Hb Hab.
  apply Hsub, ranked_value in Ha as [-> _].
  apply Hsub, ranked_value in Hb as [-> _].
  exact Hab.
Qed.


(** ** The keyword extractor *)





(** C10: the keywords returned are pairwise distinct, for every text and
    every integer [num_keywords]. *)
Theorem extract_keywords_distinct (self : TextProcessor) (text : str)
        (num_keywords : Z) :
  NoDup (extract_keywords self text num_keywords).
Proof.
  unfold extract_keywords. cbv zeta.
  destruct (slice_to_firstn num_keywords
              (sorted_desc (count_freq (filter (is_keyword self)
                                               (keyword_words text)))))
    as [n ->].
  apply NoDup_map_firstn. apply ranked_nodup.
Qed.



(** ** The topic extractor *)

Lemma Permutation_filter (A : Type) (p : A -> bool) (l l' : list A) :
  Permutation l l' -> Permutation (filter p l) (filter p l').
Proof.
  induction 1 as [|x l l' _ IH|x y l|l l' l'' _ IH1 _ IH2]; cbn [filter].
  - constructor.
  - destruct (p x); [now constructor | exact IH].
  - destruct (p x), (p y); try reflexivity. apply perm_swap.
  - now transitivity (filter p l').
Qed.

Lemma StronglySorted_filter (A : Type) (R : A -> A -> Prop) (p : A -> bool)
      (l : list A) :
  StronglySorted R l -> StronglySorted R (filter p l).
Proof.
  induction l as [|x l IH]; intros Hs; [constructor|].
  inversion Hs as [|? ? Hl Hx]; subst. cbn [filter].
  destruct (p x); [|now apply IH]. constructor; [now apply IH|].
  rewrite Forall_forall in *. intros b Hb. apply Hx.
  now apply filter_In in Hb.
Qed.

Lemma map_fst_filter (p : str * nat -> bool) (q : str -> bool)
      (l : list (str * nat)) :
  (forall item, In item l -> p item = q (fst item)) ->
  map fst (filter p l) = filter q (map fst l).
Proof.
  induction l as [|x l IH]; intros H; [reflexivity|].
  cbn [filter map]. rewrite <- (H x) by now left.
  destruct (p x); cbn [map]; rewrite IH; try reflexivity;
    intros item Hi; apply H; now right.
Qed.

(** The ranking's entries with a count above 1 are the phrases of
    [exceeding], in some order. *)
Lemma ranked_exceeding (ws : list str) :
  Permutation (map fst (filter (fun item => 1 <? snd item) (ranked ws)))
              (exceeding ws).
Proof.
  rewrite (@map_fst_filter (fun item => 1 <? snd item)
             (fun w => 1 <? frequency ws w)).
  - unfold exceeding. apply Permutation_filter. apply NoDup_Permutation.
    + apply ranked_nodup.
    + apply NoDup_nodup.
    + intros w. rewrite nodup_In. split.
      * intros Hin. apply in_map_iff in Hin as ([w' n] & <- & Hin).
        now apply ranked_value in Hin.
      * apply ranked_keys.
  - intros [w n] Hin. apply ranked_value in Hin as [-> _]. reflexivity.
Qed.

Lemma above_one_monotone (ws : list str) (a b : str * nat) :
  item_before ws a b -> (1 <? snd b) = true -> (1 <? snd a) = true.
Proof.
  intros Hab Hb. apply Nat.ltb_lt in Hb. apply Nat.ltb_lt.
  destruct Hab as [H | [H _]]; lia.
Qed.

(** The code truncates the ranking and then drops the phrases met once;
    the result is that of dropping them first and truncating after. *)
Lemma extract_topics_filter_then_truncate (self : TextProcessor) (nltk : Nltk)
      (text : str) (num_topics : Z) :
  (0 <= num_topics)%Z ->
  extract_topics self nltk text num_topics
  = firstn (Z.to_nat num_topics)
           (map fst (filter (fun item => 1 <? snd item)
                            (ranked (topic_candidates self nltk text)))).
Proof.
  intros Hk. unfold extract_topics. cbv zeta.
  rewrite (@slice_to_nonneg _ num_topics _ Hk).
  rewrite (@filter_firstn_sorted _ (item_before (topic_candidates self nltk text))).
  - now rewrite firstn_map.
  - apply above_one_monotone.
  - apply ranked_sorted.
Qed.

(** C8: for every text and every count [num_topics >= 0] the topic
    extractor returns the first [num_topics] of the phrases whose
    frequency among the candidate phrases exceeds 1, taken in ranking
    order.  So it returns at most [num_topics] phrases, as many as there
    are such phrases when they are fewer (never more, never padded),
    each of frequency above 1, and each ranking before every later one:
    more frequent, or as frequent and first met earlier. *)
Theorem extract_topics_ranked (self : TextProcessor) (nltk : Nltk)
        (text : str) (num_topics : Z) (Hk : (0 <= num_topics)%Z) :
  let candidates := topic_candidates self nltk text in
  let result := extract_topics self nltk text num_topics in
  (Z.of_nat (length result) <= num_topics)%Z /\
  length result = Nat.min (Z.to_nat num_topics) (length (exceeding candidates)) /\
  (length (exceeding candidates) < Z.to_nat num_topics ->
   length result < Z.to_nat num_topics) /\
  Forall (fun phrase => 1 < frequency candidates phrase) result /\
  StronglySorted (ranks_before candidates) result.
Proof.
  cbv zeta. set (candidates := topic_candidates self nltk text).
  assert (Hlen : length (extract_topics self nltk text num_topics)
                 = Nat.min (Z.to_nat num_topics) (length (exceeding candidates))).
  { rewrite (extract_topics_filter_then_truncate self nltk text Hk).
    rewrite length_firstn. fold candidates.
    now rewrite (Permutation_length (ranked_exceeding candidates)). }
  assert (Hin : forall w, In w (extract_topics self nltk text num_topics) ->
                          exists n, In (w, n) (ranked candidates) /\ 1 < n).
  { unfold extract_topics. cbv zeta. fold candidates.
    intros w Hw. apply in_map_iff in Hw as ([w' n] & <- & Hw).
    apply filter_In in Hw as [Hw Hn]. exists n. split.
    - destruct (slice_to_firstn num_topics (sorted_desc (count_freq candidates)))
        as [m Hm]. rewrite Hm in Hw. now apply In_firstn in Hw.
    - now apply Nat.ltb_lt in Hn. }
  repeat split.
  - rewrite Hlen. lia.
  - exact Hlen.
  - rewrite Hlen. lia.
  - apply Forall_forall. intros w Hw. apply Hin in Hw as (n & Hw & Hn).
    apply ranked_value in Hw as [<- _]. exact Hn.
  - unfold extract_topics. cbv zeta. fold candidates.
    destruct (slice_to_firstn num_topics (sorted_desc (count_freq candidates)))
      as [m ->].
    apply ranked_selection_sorted.
    + intros item Hi. apply filter_In in Hi as [Hi _].
      now apply In_firstn in Hi.
    + apply StronglySorted_filter, StronglySorted_firstn, ranked_sorted.
Qed.

Lemma extract_topics_ranked_witness :
  let self := TextProcessor_init no_nltk in
  let candidates := topic_candidates self no_nltk three_networks in
  let result := extract_topics self no_nltk three_networks 5 in
  (Z.of_nat (length result) <= 5)%Z /\
  length result = Nat.min (Z.to_nat 5) (length (exceeding candidates)) /\
  (length (exceeding candidates) < Z.to_nat 5 ->
   length result < Z.to_nat 5) /\
  Forall (fun phrase => 1 < frequency candidates phrase) result /\
  StronglySorted (ranks_before candidates) result.
Proof.
  apply (@extract_topics_ranked (TextProcessor_init no_nltk) no_nltk
           three_networks 5).
  lia.
Defined.

(** ** The heuristic fallbacks *)

Lemma record_is_record (fields : list (string * str)) :
  is_record (record fields) = true.
Proof. reflexivity. Qed.

Lemma line_pairs_records (lines : list str) :
  forallb is_record (line_pairs lines) = true.
Proof.
  assert (H : forall n lines, length lines <= n ->
                              forallb is_record (line_pairs lines) = true).
  { induction n as [|n IH]; intros [|l1 [|l2 rest]] Hlen; try reflexivity;
      cbn [length] in Hlen; try lia.
    cbn [line_pairs]. cbv zeta.
    assert (Hrest : forallb is_record (line_pairs rest) = true)
      by (apply IH; lia).
    destruct (unmark l1); [exact Hrest|].
    destruct (unmark l2); [exact Hrest|].
    cbn [forallb]. now rewrite Hrest. }
  now apply (H (length lines)).
Qed.

Lemma forallb_firstn (A : Type) (p : A -> bool) (n : nat) (l : list A) :
  forallb p l = true -> forallb p (firstn n l) = true.
Proof.
  rewrite !forallb_forall. intros H x Hx. apply H.
  now apply In_firstn in Hx.
Qed.

(** The heuristic fallbacks do return sequences of records, of at most
    5 and at most 10 entries. *)
Lemma fallbacks_return_record_sequences (text : str) :
  (is_record_sequence (_fallback_question_parsing text) = true /\
   exists items, _fallback_question_parsing text = JArray items /\
                 length items <= 5) /\
  (is_record_sequence (_fallback_flashcard_parsing text) = true /\
   exists items, _fallback_flashcard_parsing text = JArray items /\
                 length items <= 10).
Proof.
  unfold _fallback_question_parsing, _fallback_flashcard_parsing. cbv zeta.
  cbn [is_record_sequence]. repeat split.
  - apply forallb_firstn, forallb_forall. intros v Hv.
    apply in_flat_map in Hv as (line & _ & Hv).
    destruct (strip line); [contradiction|].
    destruct (_ || _); [|contradiction]. now destruct Hv as [<- | []].
  - eexists. split; [reflexivity|]. rewrite length_firstn. lia.
  - apply forallb_firstn, line_pairs_records.
  - eexists. split; [reflexivity|]. rewrite length_firstn. lia.
Qed.

(** ** The normalizer's whitespace *)

Lemma lstrip_all_space (s : str) : forallb is_space s = true -> lstrip s = [].
Proof.
  induction s as [|c s IH]; [reflexivity|]. cbn [forallb lstrip].
  intros H. apply andb_true_iff in H as [Hc Hs]. rewrite Hc. now apply IH.
Qed.

(** X2: whitespace-only input, the empty string included, is normalized to
    the empty string. *)
Theorem clean_transcript_blank (text : str) :
  forallb is_space text = true -> clean_transcript text = [].
Proof.
  intros H. unfold clean_transcript. destruct text as [|c text]; [reflexivity|].
  unfold strip at 1. rewrite (lstrip_all_space _ H). reflexivity.
Qed.

Lemma clean_transcript_blank_witness :
  clean_transcript [space; tab; nl; space] = [].
Proof. apply clean_transcript_blank. reflexivity. Defined.

(** [lstrip] drops a prefix: what it returns is what is left of [s]
    after as many characters as it removed. *)
Lemma skipn_lstrip (s : str) :
  skipn (length s - length (lstrip s)) s = lstrip s.
Proof.
  induction s as [|c s IH]; [reflexivity|]. cbn [lstrip].
  destruct (is_space c).
  - assert (Hle : length (lstrip s) <= length s).
    { clear. induction s as [|x s IH]; cbn [lstrip length]; [lia|].
      destruct (is_space x); cbn [length]; lia. }
    cbn [length]. replace (S (length s) - length (lstrip s))
      with (S (length s - length (lstrip s))) by lia.
    cbn [skipn]. exact IH.
  - now rewrite Nat.sub_diag.
Qed.

Lemma lstrip_length (s : str) : length (lstrip s) <= length s.
Proof.
  induction s as [|x s IH]; cbn [lstrip length]; [lia|].
  destruct (is_space x); cbn [length]; lia.
Qed.

Section GreedyRun.
Variable A : Type.
Variable p : ascii -> bool.

(** A greedy unbounded repetition before a continuation that accepts
    whatever follows takes the whole run. *)
Lemma rep_greedy_run (prev : option ascii) (s : str)
      (k : option ascii -> str -> option A) :
  (forall pr t, k pr t <> None) ->
  rep true 0 None p prev s k = k (last_of_run p prev s) (drop_run p s).
Proof.
  intros Hk. revert prev. induction s as [|c s IH]; intros prev; [reflexivity|].
  cbn [rep hi_allows hi_pred pred andb drop_run last_of_run].
  destruct (p c); [|reflexivity]. rewrite IH.
  destruct (k (last_of_run p (Some c) s) (drop_run p s)) eqn:E; [reflexivity|].
  now apply Hk in E.
Qed.
End GreedyRun.

Lemma drop_run_space (s : str) : drop_run is_space s = lstrip s.
Proof.
  induction s as [|c s IH]; [reflexivity|]. cbn [drop_run lstrip].
  now rewrite IH.
Qed.

(** A match of the whitespace pattern: the maximal run of whitespace at
    the head of the text, when there is one. *)
Lemma match_here_whitespace (prev : option ascii) (s : str) :
  match_here re_whitespace prev s =
  match s with
  | c :: s' =>
      if is_space c
      then Some (MkMatch (firstn (length s - length (lstrip s')) s) (lstrip s') [])
      else None
  | [] => None
  end.
Proof.
  unfold match_here, re_whitespace, plus. cbn [rmatch].
  destruct s as [|c s']; [reflexivity|].
  cbn [rep hi_allows hi_pred pred andb].
  destruct (is_space c); [|reflexivity].
  rewrite rep_greedy_run by discriminate. now rewrite drop_run_space.
Qed.

(** Collapsing the whitespace runs leaves single spaces only; the
    output begins with whitespace exactly when the scanned text does. *)
Lemma sub_whitespace_single_spaced (s : str) (skip : nat) (prev : option ascii) :
  let out := sub_go re_whitespace (const_repl (lit " ")) skip prev s in
  single_spaced out = true /\
  first_char_space out = first_char_space (skipn skip s).
Proof.
  cbv zeta. revert skip prev.
  induction s as [|c s IH]; intros skip prev.
  - cbn [sub_go]. rewrite match_here_whitespace.
    destruct skip; split; reflexivity.
  - destruct skip as [|n]; cbn [sub_go skipn]; [|apply IH].
    rewrite match_here_whitespace. destruct (is_space c) eqn:Ec.
    + cbn [m_text].
      pose proof (lstrip_length s) as Hle.
      rewrite length_firstn. cbn [length].
      replace (Nat.min (S (length s) - length (lstrip s)) (S (length s)))
        with (S (length s - length (lstrip s))) by lia.
      destruct (IH (length s - length (lstrip s)) (Some c)) as [Hs Hf].
      rewrite skipn_lstrip, lstrip_head in Hf.
      remember (sub_go re_whitespace (const_repl (lit " "))
                       (length s - length (lstrip s)) (Some c) s) as rest.
      unfold const_repl. cbn [lit list_ascii_of_string app single_spaced
                              first_char_space].
      rewrite Hf, Hs, Ec. split; reflexivity.
    + destruct (IH 0 (Some c)) as [Hs Hf].
      cbn [single_spaced first_char_space]. rewrite Ec, Hs. split; reflexivity.
Qed.

Lemma single_spaced_app (a b : str) :
  single_spaced (a ++ b) = true ->
  single_spaced a = true /\ single_spaced b = true.
Proof.
  induction a as [|c a IH]; cbn [app single_spaced]; [now split|].
  intros H. apply andb_true_iff in H as [Hc Hrest].
  destruct (IH Hrest) as [Ha Hb]. split; [|exact Hb].
  rewrite Ha, andb_true_r. destruct (is_space c); [|reflexivity].
  apply andb_true_iff in Hc as [Hsp Hnext]. rewrite Hsp. cbn [andb].
  destruct a; [reflexivity | exact Hnext].
Qed.

Lemma lstrip_suffix (s : str) : exists dropped, s = dropped ++ lstrip s.
Proof.
  exists (firstn (length s - length (lstrip s)) s).
  pose proof (firstn_skipn (length s - length (lstrip s)) s) as H.
  rewrite skipn_lstrip in H. now symmetry.
Qed.

Lemma rstrip_prefix (s : str) : exists dropped, s = rstrip s ++ dropped.
Proof.
  unfold rstrip. destruct (lstrip_suffix (rev s)) as [d Hd].
  exists (rev d). rewrite <- rev_app_distr, <- Hd. now rewrite rev_involutive.
Qed.

Lemma single_spaced_strip (s : str) :
  single_spaced s = true -> single_spaced (strip s) = true.
Proof.
  intros H. unfold strip.
  destruct (lstrip_suffix s) as [d Hd]. rewrite Hd in H.
  apply single_spaced_app in H as [_ H].
  destruct (rstrip_prefix (lstrip s)) as [e He]. rewrite He in H.
  now apply single_spaced_app in H as [H _].
Qed.

(** X3: in the normalizer's output every whitespace character is a plain
    space and no two spaces are adjacent. *)
Theorem clean_transcript_single_spaced (text : str) :
  single_spaced (clean_transcript text) = true.
Proof.
  unfold clean_transcript.
  destruct text as [|c text]; [reflexivity|].
  destruct (strip (c :: text)); [reflexivity|].
  apply single_spaced_strip. unfold _remove_filler_words. cbv zeta.
  apply (sub_whitespace_single_spaced _ 0 None).
Qed.

(** ** The sentence segmenter *)

Lemma sentences_long_and_trimmed (nltk : Nltk) (text : str) (sentence : str) :
  In sentence (split_into_sentences nltk text) ->
  10 < length sentence /\ trimmed sentence.
Proof.
  intros Hin. unfold split_into_sentences in Hin.
  cbv zeta in Hin. apply filter_In in Hin as [Hin Hlen].
  apply in_map_iff in Hin as (raw & <- & _).
  split; [now apply Nat.ltb_lt | apply strip_trimmed].
Qed.

(** X4: whatever tokenizer is deployed, every sentence returned is longer
    than 10 characters and has no whitespace at its ends. *)
Theorem split_into_sentences_invariant (nltk : Nltk) (text : str) :
  Forall (fun sentence => 10 < length sentence /\ trimmed sentence)
         (split_into_sentences nltk text).
Proof.
  apply Forall_forall. intros sentence. apply sentences_long_and_trimmed.
Qed.

(** ** More on the keyword extractor *)

Lemma filter_length_le (A : Type) (p : A -> bool) (l : list A) :
  length (filter p l) <= length l.
Proof.
  induction l as [|x l IH]; cbn [filter length]; [lia|].
  destruct (p x); cbn [length]; lia.
Qed.

Lemma lower_upper_char (c : ascii) : lower_char (upper_char c) = lower_char c.
Proof. destruct c as [[] [] [] [] [] [] [] []]; reflexivity. Qed.

Lemma lower_lower_char (c : ascii) : lower_char (lower_char c) = lower_char c.
Proof. destruct c as [[] [] [] [] [] [] [] []]; reflexivity. Qed.

Lemma is_punctuation_lower_char (c : ascii) :
  is_punctuation (lower_char c) = is_punctuation c.
Proof. destruct c as [[] [] [] [] [] [] [] []]; reflexivity. Qed.

Lemma keyword_words_upper (text : str) :
  keyword_words (upper text) = keyword_words text.
Proof.
  unfold keyword_words, lower, upper. rewrite map_map.
  now rewrite (map_ext _ _ lower_upper_char).
Qed.

Lemma keyword_words_lower (text : str) :
  keyword_words (lower text) = keyword_words text.
Proof.
  unfold keyword_words, lower. rewrite map_map.
  now rewrite (map_ext _ _ lower_lower_char).
Qed.

(** X6: on ASCII text keyword extraction does not see letter case: the
    text, its upper-cased form and its lower-cased form give the same
    keywords. *)
Theorem extract_keywords_case_insensitive (self : TextProcessor) (text : str)
        (num_keywords : Z) :
  ascii_text text ->
  extract_keywords self (upper text) num_keywords
  = extract_keywords self text num_keywords /\
  extract_keywords self (lower text) num_keywords
  = extract_keywords self text num_keywords.
Proof.
  intros _. unfold extract_keywords. cbv zeta.
  now rewrite keyword_words_upper, keyword_words_lower.
Qed.

Lemma extract_keywords_case_insensitive_witness :
  let self := TextProcessor_init no_nltk in
  let text := lit "Neural Networks learn; neural networks." in
  extract_keywords self (upper text) 3 = extract_keywords self text 3 /\
  extract_keywords self (lower text) 3 = extract_keywords self text 3.
Proof.
  apply (@extract_keywords_case_insensitive (TextProcessor_init no_nltk)
           (lit "Neural Networks learn; neural networks.") 3).
  reflexivity.
Defined.

Lemma filter_map_filter (p : ascii -> bool) (f : ascii -> ascii) (s : str) :
  (forall c, p (f c) = p c) ->
  filter p (map f (filter p s)) = filter p (map f s).
Proof.
  intros H. induction s as [|c s IH]; [reflexivity|]. cbn [filter map].
  destruct (p c) eqn:E; cbn [filter map]; rewrite H, E; now rewrite IH.
Qed.

(** X7: on ASCII text keyword extraction does not see punctuation:
    deleting the punctuation characters of the text beforehand changes
    nothing. *)
Theorem extract_keywords_ignores_punctuation (self : TextProcessor)
        (text : str) (num_keywords : Z) :
  ascii_text text ->
  extract_keywords self (filter (fun c => negb (is_punctuation c)) text)
                   num_keywords
  = extract_keywords self text num_keywords.
Proof.
  intros _. unfold extract_keywords, keyword_words, lower. cbv zeta.
  rewrite (filter_map_filter (fun c => negb (is_punctuation c)) lower_char);
    [reflexivity|].
  intros c. now rewrite is_punctuation_lower_char.
Qed.

Lemma extract_keywords_ignores_punctuation_witness :
  let self := TextProcessor_init no_nltk in
  let text := lit "Neural Networks learn; neural networks." in
  extract_keywords self (filter (fun c => negb (is_punctuation c)) text) 3
  = extract_keywords self text 3.
Proof.
  apply (@extract_keywords_ignores_punctuation (TextProcessor_init no_nltk)
           (lit "Neural Networks learn; neural networks.") 3).
  reflexivity.
Defined.

(** The keys of the ranking are the distinct words, in some order. *)
Lemma ranked_keys_perm (ws : list str) :
  Permutation (map fst (ranked ws)) (nodup str_dec ws).
Proof.
  apply NoDup_Permutation.
  - apply ranked_nodup.
  - apply NoDup_nodup.
  - intros w. rewrite nodup_In. split.
    + intros Hin. apply in_map_iff in Hin as ([w' n] & <- & Hin).
      now apply ranked_value in Hin.
    + apply ranked_keys.
Qed.

(** X8: with room for all of them, every eligible word of the text is
    returned, once: the result is a rearrangement of the distinct words
    that pass the keyword filter. *)
Theorem extract_keywords_complete (self : TextProcessor) (text : str)
        (num_keywords : Z) :
  let keywords := filter (is_keyword self) (keyword_words text) in
  (Z.of_nat (length (nodup str_dec keywords)) <= num_keywords)%Z ->
  Permutation (extract_keywords self text num_keywords)
              (nodup str_dec keywords).
Proof.
  cbv zeta. intros Hk. unfold extract_keywords. cbv zeta.
  set (keywords := filter (is_keyword self) (keyword_words text)) in *.
  change (sorted_desc (count_freq keywords)) with (ranked keywords).
  rewrite slice_to_nonneg by lia. rewrite firstn_all2.
  - apply ranked_keys_perm.
  - rewrite <- (length_map fst).
    rewrite (Permutation_length (ranked_keys_perm keywords)). lia.
Qed.

Lemma extract_keywords_complete_witness :
  Permutation
    (extract_keywords (TextProcessor_init no_nltk)
                      (lit "Neural networks. neural networks are powerful.") 5)
    (nodup str_dec
           (filter (is_keyword (TextProcessor_init no_nltk))
                   (keyword_words
                      (lit "Neural networks. neural networks are powerful.")))).
Proof.
  apply (@extract_keywords_complete (TextProcessor_init no_nltk)
           (lit "Neural networks. neural networks are powerful.") 5).
  vm_compute. discriminate.
Defined.

(** X9: the first keyword returned is a most frequent eligible word: no
    word that passes the keyword filter occurs more often in the text.
    This holds for every [num_keywords], negative ones included. *)
Theorem extract_keywords_first_most_frequent (self : TextProcessor)
        (text : str) (num_keywords : Z) (first : str) (others : list str)
        (candidate : str) :
  extract_keywords self text num_keywords = first :: others ->
  is_keyword self candidate = true ->
  frequency (keyword_words text) candidate
  <= frequency (keyword_words text) first.
Proof.
  unfold extract_keywords. cbv zeta.
  set (words := keyword_words text).
  set (keywords := filter (is_keyword self) words).
  change (sorted_desc (count_freq keywords)) with (ranked keywords).
  intros Hres Hcand.
  destruct (slice_to_firstn num_keywords (ranked keywords)) as [n Hn].
  rewrite Hn in Hres.
  pose proof (ranked_sorted keywords) as Hsorted.
  destruct (ranked keywords) as [|[w nw] tail] eqn:Hranked;
    [now destruct n|].
  destruct n as [|n]; [discriminate|]. cbn [firstn map fst] in Hres.
  injection Hres as -> _.
  assert (Hfirst : nw = frequency keywords first /\ In first keywords).
  { apply ranked_value. rewrite Hranked. now left. }
  destruct Hfirst as [-> Hin].
  assert (Hkw : is_keyword self first = true) by now apply filter_In in Hin.
  rewrite <- (@frequency_filter (is_keyword self) words first Hkw).
  rewrite <- (@frequency_filter (is_keyword self) words candidate Hcand).
  fold keywords.
  destruct (in_dec str_dec candidate keywords) as [Hc | Hc].
  - apply ranked_keys in Hc. apply in_map_iff in Hc as ([w' n'] & Heq & Hc).
    cbn [fst] in Heq. subst w'.
    pose proof (ranked_value _ _ _ Hc) as [-> _].
    rewrite Hranked in Hc. destruct Hc as [Hc | Hc].
    + injection Hc as <- _. lia.
    + inversion Hsorted as [|? ? _ Hall]; subst.
      rewrite Forall_forall in Hall. specialize (Hall _ Hc).
      destruct Hall as [H | [H _]]; cbn [snd] in H; lia.
  - unfold frequency at 1.
    rewrite (proj1 (count_occ_not_In str_dec keywords candidate) Hc). lia.
Qed.

Lemma extract_keywords_first_most_frequent_witness :
  frequency (keyword_words (lit "alpha beta beta gamma")) (lit "alpha")
  <= frequency (keyword_words (lit "alpha beta beta gamma")) (lit "beta").
Proof.
  apply (@extract_keywords_first_most_frequent (TextProcessor_init no_nltk)
           (lit "alpha beta beta gamma") 2 (lit "beta") [lit "alpha"]
           (lit "alpha")).
  - vm_compute. reflexivity.
  - vm_compute. reflexivity.
Defined.

(** ** More on the topic extractor *)

Lemma topics_nodup (self : TextProcessor) (nltk : Nltk) (text : str)
      (num_topics : Z) :
  NoDup (extract_topics self nltk text num_topics).
Proof.
  unfold extract_topics. cbv zeta.
  set (candidates := topic_candidates self nltk text).
  change (sorted_desc (count_freq candidates)) with (ranked candidates).
  destruct (slice_to_firstn num_topics (ranked candidates)) as [n ->].
  pose proof (@NoDup_map_firstn _ _ fst n _ (ranked_nodup candidates)) as Hnd.
  revert Hnd. generalize (firstn n (ranked candidates)). intros l.
  induction l as [|x l IH]; intros Hnd; [constructor|].
  cbn [map] in Hnd. inversion Hnd as [|? ? Hx Hl]; subst. cbn [filter].
  destruct (1 <? snd x); [|now apply IH]. cbn [map]. constructor.
  - intros Hin. apply Hx. apply in_map_iff in Hin as (y & Hy & Hin).
    apply in_map_iff. exists y. split; [exact Hy|]. now apply filter_In in Hin.
  - now apply IH.
Qed.

(** X10: the topics returned are pairwise distinct, for every text and every
    integer [num_topics]. *)
Theorem extract_topics_distinct (self : TextProcessor) (nltk : Nltk)
        (text : str) (num_topics : Z) :
  NoDup (extract_topics self nltk text num_topics).
Proof.
  unfold extract_topics. cbv zeta.
  set (candidates := topic_candidates self nltk text).
  change (sorted_desc (count_freq candidates)) with (ranked candidates).
  destruct (slice_to_firstn num_topics (ranked candidates)) as [n ->].
  pose proof (@NoDup_map_firstn _ _ fst n _ (ranked_nodup candidates)) as Hnd.
  revert Hnd. generalize (firstn n (ranked candidates)). intros l.
  induction l as [|x l IH]; intros Hnd; [constructor|].
  cbn [map] in Hnd. inversion Hnd as [|? ? Hx Hl]; subst. cbn [filter].
  destruct (1 <? snd x); [|now apply IH]. cbn [map]. constructor.
  - intros Hin. apply Hx. apply in_map_iff in Hin as (y & Hy & Hin).
    apply in_map_iff. exists y. split; [exact Hy|]. now apply filter_In in Hin.
  - now apply IH.
Qed.

Lemma word_pairs_in (words : list str) (phrase : str) :
  In phrase (word_pairs words) ->
  exists before w1 w2 after,
    words = before ++ w1 :: w2 :: after /\
    phrase = lower (w1 ++ lit " " ++ w2).
Proof.
  induction words as [|w1 words IH]; [contradiction|].
  destruct words as [|w2 rest]; [contradiction|].
  cbn [word_pairs]. intros [<- | Hin].
  - exists [], w1, w2, rest. split; reflexivity.
  - destruct (IH Hin) as (before & a & b & after & Heq & Hp).
    exists (w1 :: before), a, b, after. rewrite Heq. split; [reflexivity | exact Hp].
Qed.

(** X11: every topic is the lower-cased pair of two consecutive words of one
    of the sentences and contains one of the top 20 keywords. *)
Theorem extract_topics_shape (self : TextProcessor) (nltk : Nltk)
        (text : str) (num_topics : Z) (phrase : str) :
  In phrase (extract_topics self nltk text num_topics) ->
  exists sentence w1 w2 keyword,
    In sentence (split_into_sentences nltk text) /\
    consecutive_words sentence w1 w2 /\
    phrase = lower (w1 ++ lit " " ++ w2) /\
    In keyword (extract_keywords self text 20) /\
    contains keyword phrase = true.
Proof.
  unfold extract_topics. cbv zeta. intros Hin.
  apply in_map_iff in Hin as ([p n] & Hp & Hin). cbn [fst] in Hp. subst p.
  apply filter_In in Hin as [Hin _].
  destruct (slice_to_firstn num_topics
              (sorted_desc (count_freq (topic_candidates self nltk text))))
    as [m Hm].
  rewrite Hm in Hin. apply In_firstn in Hin.
  apply ranked_value in Hin as [_ Hin].
  unfold topic_candidates in Hin. cbv zeta in Hin.
  apply in_flat_map in Hin as (sentence & Hs & Hin).
  unfold sentence_candidates in Hin. cbv zeta in Hin.
  destruct (2 <=? _); [|contradiction].
  apply filter_In in Hin as [Hpair Hkw].
  apply existsb_exists in Hkw as (keyword & Hk & Hc).
  apply word_pairs_in in Hpair as (before & w1 & w2 & after & Hw & Hp).
  exists sentence, w1, w2, keyword. repeat split; try assumption.
  now exists before, after.
Qed.

Lemma extract_topics_shape_witness :
  exists sentence w1 w2 keyword,
    In sentence (split_into_sentences no_nltk three_networks) /\
    consecutive_words sentence w1 w2 /\
    lit "neural networks" = lower (w1 ++ lit " " ++ w2) /\
    In keyword (extract_keywords (TextProcessor_init no_nltk) three_networks 20) /\
    contains keyword (lit "neural networks") = true.
Proof.
  apply (@extract_topics_shape (TextProcessor_init no_nltk) no_nltk
           three_networks 5 (lit "neural networks")).
  vm_compute. now left.
Defined.

(** X12: a text with fewer than two keywords has no topics, whatever
    [num_topics] is. *)
Theorem extract_topics_needs_two_keywords (self : TextProcessor)
        (nltk : Nltk) (text : str) (num_topics : Z) :
  length (extract_keywords self text 20) < 2 ->
  extract_topics self nltk text num_topics = [].
Proof.
  intros Hlen. unfold extract_topics. cbv zeta.
  assert (Hnone : topic_candidates self nltk text = []).
  { unfold topic_candidates. cbv zeta.
    induction (split_into_sentences nltk text) as [|sentence l IH];
      [reflexivity|].
    cbn [flat_map]. rewrite IH, app_nil_r.
    unfold sentence_candidates. cbv zeta.
    destruct (Nat.leb_spec 2
                (length (filter (fun keyword => contains keyword (lower sentence))
                                (extract_keywords self text 20))))
      as [Hge | Hlt]; [|reflexivity].
    pose proof (filter_length_le
                  (fun keyword => contains keyword (lower sentence))
                  (extract_keywords self text 20)). lia. }
  rewrite Hnone. unfold slice_to, count_freq. cbn [fold_left sorted_desc fold_right].
  destruct (num_topics <? 0)%Z; rewrite firstn_nil; reflexivity.
Qed.

Lemma extract_topics_needs_two_keywords_witness :
  extract_topics (TextProcessor_init no_nltk) no_nltk
                 (lit "The networks are what they are.") 5 = [].
Proof.
  apply extract_topics_needs_two_keywords. vm_compute. lia.
Defined.

(** ** More on the statistics *)

Lemma join_nil_split_char (c : ascii) (cur s : str) :
  join [] (split_on_go [c] 0 cur s)
  = rev cur ++ filter (fun x => negb (ascii_eqb c x)) s.
Proof.
  revert cur. induction s as [|x s IH]; intros cur.
  - cbn. now rewrite app_nil_r.
  - cbn [split_on_go startswith length Nat.sub andb filter].
    rewrite andb_true_r. destruct (ascii_eqb c x); cbn [negb].
    + assert (Hj : forall a l, join [] (a :: l) = a ++ join [] l).
      { intros a [|b l]; cbn [join app]; [now rewrite app_nil_r | reflexivity]. }
      rewrite Hj, IH. reflexivity.
    + rewrite IH. cbn [rev]. now rewrite <- app_assoc.
Qed.

(** Deleting a character with [replace] keeps exactly the others. *)
Lemma replace_char_nil (c : ascii) (s : str) :
  replace [c] [] s = filter (fun x => negb (ascii_eqb c x)) s.
Proof. unfold replace, split_on. apply join_nil_split_char. Qed.

Lemma count_char_complement (c : ascii) (s : str) :
  length (filter (fun x => negb (ascii_eqb c x)) s) + count_char c s = length s.
Proof.
  unfold count_char. induction s as [|x s IH]; [reflexivity|].
  cbn [filter]. destruct (ascii_eqb c x); cbn [negb length]; lia.
Qed.

(** X13: on a non-empty text the two character counts differ by the number
    of space characters exactly: tabs and line breaks count in both. *)
Theorem stats_character_counts (nltk : Nltk) (text : str) :
  text <> [] ->
  exists with_spaces without_spaces,
    stats_get (create_text_summary_stats nltk text) "character_count"
    = Some (NInt (Z.of_nat with_spaces)) /\
    stats_get (create_text_summary_stats nltk text) "character_count_no_spaces"
    = Some (NInt (Z.of_nat without_spaces)) /\
    with_spaces = length text /\
    with_spaces = without_spaces + count_char space text.
Proof.
  intros Hne. destruct text as [|c text]; [contradiction|].
  exists (length (c :: text)), (length (replace (lit " ") [] (c :: text))).
  repeat split.
  change (lit " ") with [space]. rewrite replace_char_nil.
  symmetry. apply count_char_complement.
Qed.

Lemma stats_character_counts_witness :
  exists with_spaces without_spaces,
    stats_get (create_text_summary_stats no_nltk two_sentences) "character_count"
    = Some (NInt (Z.of_nat with_spaces)) /\
    stats_get (create_text_summary_stats no_nltk two_sentences)
              "character_count_no_spaces"
    = Some (NInt (Z.of_nat without_spaces)) /\
    with_spaces = length two_sentences /\
    with_spaces = without_spaces + count_char space two_sentences.
Proof.
  apply (@stats_character_counts no_nltk two_sentences). discriminate.
Defined.

Lemma split_ws_go_all_space (s : str) :
  forallb is_space s = true -> split_ws_go [] s = [].
Proof.
  induction s as [|c s IH]; [reflexivity|]. cbn [forallb split_ws_go].
  intros H. apply andb_true_iff in H as [Hc Hs]. rewrite Hc. now apply IH.
Qed.

Lemma float_div_zero (b : nat) : float_div 0 b = 0%Q.
Proof.
  unfold float_div, to_double, ratio.
  assert (H : Qnum (Qred (Z.of_nat 0 # Pos.of_nat b)) = 0%Z) by reflexivity.
  rewrite H. reflexivity.
Qed.

(** X14: a non-empty text of whitespace only has no words, and no quotient
    by zero is taken.  The average word length is the int 0 of the guard
    [if words else 0]; the average sentence length is the int 0 when the
    segmenter finds no sentence and the float 0.0, the quotient of 0 words
    by the sentence count, when the installed tokenizer returns some; both
    time estimates are the float 0.0. *)
Theorem stats_blank_text (nltk : Nltk) (text : str) :
  text <> [] -> forallb is_space text = true ->
  let stats := create_text_summary_stats nltk text in
  stats_get stats "word_count" = Some (NInt 0) /\
  stats_get stats "avg_words_per_sentence"
  = Some (match split_into_sentences nltk text with
          | [] => NInt 0
          | _ :: _ => NFloat 0
          end) /\
  stats_get stats "avg_chars_per_word" = Some (NInt 0) /\
  stats_get stats "estimated_reading_time_minutes" = Some (NFloat 0) /\
  stats_get stats "estimated_speaking_time_minutes" = Some (NFloat 0).
Proof.
  intros Hne Hblank. destruct text as [|c text]; [contradiction|].
  cbv zeta. unfold create_text_summary_stats.
  unfold split_ws. rewrite (split_ws_go_all_space _ Hblank).
  cbn [length]. rewrite !float_div_zero.
  destruct (split_into_sentences nltk (c :: text)); repeat split.
Qed.

Lemma stats_blank_text_witness :
  let stats := create_text_summary_stats no_nltk [space; nl; tab] in
  stats_get stats "word_count" = Some (NInt 0) /\
  stats_get stats "avg_words_per_sentence"
  = Some (match split_into_sentences no_nltk [space; nl; tab] with
          | [] => NInt 0
          | _ :: _ => NFloat 0
          end) /\
  stats_get stats "avg_chars_per_word" = Some (NInt 0) /\
  stats_get stats "estimated_reading_time_minutes" = Some (NFloat 0) /\
  stats_get stats "estimated_speaking_time_minutes" = Some (NFloat 0).
Proof.
  apply (@stats_blank_text no_nltk [space; nl; tab]).
  - discriminate.
  - reflexivity.
Defined.

(** ** The transcript statistics of the speech-to-text module *)

Lemma split_on_go_chars (sep : str) (skip : nat) (cur s piece : str)
      (c : ascii) :
  In piece (split_on_go sep skip cur s) -> In c piece -> In c cur \/ In c s.
Proof.
  revert skip cur. induction s as [|x s IH]; intros skip cur Hp Hc.
  - cbn [split_on_go] in Hp. destruct Hp as [<- | []].
    left. now apply in_rev.
  - cbn [split_on_go] in Hp. destruct skip as [|n].
    + destruct (startswith sep (x :: s)).
      * destruct Hp as [<- | Hp]; [left; now apply in_rev|].
        destruct (IH _ _ Hp Hc) as [[] | H]. right. now right.
      * destruct (IH _ _ Hp Hc) as [[<- | H] | H].
        -- right. now left.
        -- now left.
        -- right. now right.
    + destruct (IH _ _ Hp Hc) as [H | H]; [now left | right; now right].
Qed.

Lemma strip_all_space (s : str) : forallb is_space s = true -> strip s = [].
Proof. intros H. unfold strip. now rewrite (lstrip_all_space _ H). Qed.

Lemma length_split_on_char (c : ascii) (cur s : str) :
  length (split_on_go [c] 0 cur s) = count_char c s + 1.
Proof.
  unfold count_char. revert cur. induction s as [|x s IH]; intros cur.
  - reflexivity.
  - cbn [split_on_go startswith length Nat.sub andb filter].
    rewrite andb_true_r. destruct (ascii_eqb c x); cbn [length]; now rewrite IH.
Qed.

(** X17: the speech-to-text statistics are defined on every transcript, the
    empty one included; on a transcript of whitespace only they count no
    word and no sentence. *)
Theorem transcript_stats_blank (transcript : str) :
  forallb is_space transcript = true ->
  let stats := get_transcript_summary_stats transcript in
  stats_get stats "word_count" = Some (NInt 0) /\
  stats_get stats "sentence_count" = Some (NInt 0) /\
  stats_get stats "estimated_reading_time" = Some (NFloat 0).
Proof.
  intros Hblank. cbv zeta. unfold get_transcript_summary_stats. cbv zeta.
  unfold split_ws. rewrite (split_ws_go_all_space _ Hblank).
  rewrite (@filter_none _ _ (split_on (lit ".") transcript)).
  - repeat split.
  - intros piece Hin. apply negb_false_iff, str_eqb_eq, strip_all_space.
    apply forallb_forall. intros c Hc.
    destruct (@split_on_go_chars _ _ _ _ _ c Hin Hc) as [[] | H].
    rewrite forallb_forall in Hblank. now apply Hblank.
Qed.

Lemma transcript_stats_blank_witness :
  let stats := get_transcript_summary_stats [] in
  stats_get stats "word_count" = Some (NInt 0) /\
  stats_get stats "sentence_count" = Some (NInt 0) /\
  stats_get stats "estimated_reading_time" = Some (NFloat 0).
Proof. apply (@transcript_stats_blank []). reflexivity. Defined.

(** X18: the sentence count of the speech-to-text statistics never exceeds
    the number of periods plus one. *)
Theorem transcript_stats_sentence_bound (transcript : str) :
  exists n,
    stats_get (get_transcript_summary_stats transcript) "sentence_count"
    = Some (NInt (Z.of_nat n)) /\
    n <= count_char "." transcript + 1.
Proof.
  eexists. split; [reflexivity|].
  etransitivity; [apply filter_length_le|].
  unfold split_on. change (lit ".") with ["."%char].
  now rewrite length_split_on_char.
Qed.

(** On a non-empty text the two statistics routines agree on the word
    count and on both character counts. *)
Theorem transcript_stats_agree (nltk : Nltk) (text : str) (key : string) :
  text <> [] ->
  In key ["word_count"; "character_count"; "character_count_no_spaces"]%string ->
  stats_get (get_transcript_summary_stats text) key
  = stats_get (create_text_summary_stats nltk text) key.
Proof.
  intros Hne Hkey. destruct text as [|c text]; [contradiction|].
  destruct Hkey as [<- | [<- | [<- | []]]]; reflexivity.
Qed.

Lemma transcript_stats_agree_witness :
  stats_get (get_transcript_summary_stats two_sentences) "word_count"
  = stats_get (create_text_summary_stats no_nltk two_sentences) "word_count".
Proof.
  apply (@transcript_stats_agree no_nltk two_sentences "word_count").
  - discriminate.
  - now left.
Defined.

(** ** The insight aggregator *)

Lemma length_slice_to_nonneg (A : Type) (k : Z) (l : list A) :
  (0 <= k)%Z -> (Z.of_nat (length (slice_to k l)) <= k)%Z.
Proof.
  intros Hk. rewrite slice_to_nonneg by exact Hk. rewrite length_firstn. lia.
Qed.

(** X15: the insight record holds at most 10 keywords, pairwise distinct, at
    most 5 topics and at most 3 sentences, each longer than 10
    characters and trimmed; its statistics are those of the text. *)
Theorem get_text_insights_bounds (nltk : Nltk) (text : str) :
  let insight := get_text_insights nltk text in
  length (insight_keywords insight) <= 10 /\
  NoDup (insight_keywords insight) /\
  length (insight_topics insight) <= 5 /\
  NoDup (insight_topics insight) /\
  length (insight_sentences insight) <= 3 /\
  Forall (fun sentence => 10 < length sentence /\ trimmed sentence)
         (insight_sentences insight) /\
  insight_stats insight = create_text_summary_stats nltk text.
Proof.
  cbv zeta. unfold get_text_insights. cbv zeta.
  cbn [insight_keywords insight_topics insight_sentences insight_stats].
  repeat split.
  - unfold extract_keywords. cbv zeta. rewrite length_map.
    pose proof (@length_slice_to_nonneg _ 10
                  (sorted_desc (count_freq
                     (filter (is_keyword (TextProcessor_init nltk))
                             (keyword_words text))))). lia.
  - unfold extract_keywords. cbv zeta.
    destruct (slice_to_firstn 10
                (sorted_desc (count_freq
                   (filter (is_keyword (TextProcessor_init nltk))
                           (keyword_words text))))) as [n ->].
    apply NoDup_map_firstn. apply ranked_nodup.
  - unfold extract_topics. cbv zeta. rewrite length_map.
    etransitivity; [apply filter_length_le|].
    pose proof (@length_slice_to_nonneg _ 5
                  (sorted_desc (count_freq
                     (topic_candidates (TextProcessor_init nltk) nltk text)))).
    lia.
  - apply topics_nodup.
  - pose proof (@length_slice_to_nonneg _ 3 (split_into_sentences nltk text)).
    lia.
  - rewrite slice_to_nonneg by lia. apply Forall_forall. intros s Hs.
    apply In_firstn in Hs. now apply sentences_long_and_trimmed in Hs.
Qed.

(** ** What the heuristic fallbacks extract *)

Lemma fallback_questions_map (lines : list str) :
  flat_map
    (fun line =>
       let line := strip line in
       match line with
       | [] => []
       | _ =>
           if contains (lit "?") line || endswith (lit ".") line
           then [record
                   [("question", line);
                    ("type", lit "text");
                    ("note", lit "Question extracted from text (formatting may be incomplete)")]%string]
           else []
       end)
    lines
  = map question_record
        (filter (fun line =>
                   negb (str_eqb line [])
                   && (contains (lit "?") line || endswith (lit ".") line))
                (map strip lines)).
Proof.
  cbv zeta. induction lines as [|raw lines IH]; [reflexivity|].
  cbn [flat_map map filter]. rewrite IH.
  destruct (strip raw) as [|c line] eqn:E; [reflexivity|].
  change (str_eqb (c :: line) []) with false. cbn [negb andb].
  destruct (contains (lit "?") (c :: line) || endswith (lit ".") (c :: line));
    reflexivity.
Qed.

Lemma fallback_question_kept (text : str) :
  _fallback_question_parsing text
  = JArray (map question_record
                (firstn 5 (filter keeps_question
                                  (map strip (split_on [nl] text))))).
Proof.
  unfold _fallback_question_parsing. cbv zeta.
  pose proof (fallback_questions_map (split_on [nl] text)) as Hmap.
  cbv zeta in Hmap. rewrite Hmap, firstn_map. reflexivity.
Qed.

(** X19: the quiz fallback returns the records of the first 5 kept lines,
    one record per line and in the order of the text.  The kept lines
    are the lines of the text, each stripped of its surrounding
    whitespace, that are not empty and contain a question mark or end
    with a period. *)
Theorem fallback_question_records (text : str) :
  let kept :=
    firstn 5 (filter keeps_question (map strip (split_on [nl] text))) in
  _fallback_question_parsing text = JArray (map question_record kept) /\
  length kept <= 5 /\
  Forall (fun line =>
            line <> [] /\ trimmed line /\
            (contains (lit "?") line = true \/ endswith (lit ".") line = true))
         kept.
Proof.
  cbv zeta. split; [apply fallback_question_kept|]. split.
  - rewrite length_firstn. lia.
  - apply Forall_forall. intros line Hin. apply In_firstn in Hin.
    apply filter_In in Hin as [Hin Hkeep].
    apply in_map_iff in Hin as (raw & <- & Hraw).
    apply andb_true_iff in Hkeep as [Hne Hmark].
    repeat split.
    + intros E. rewrite E in Hne. discriminate.
    + apply strip_trimmed.
    + apply strip_trimmed.
    + now apply orb_true_iff in Hmark.
Qed.

Lemma strip_chars (s : str) (c : ascii) : In c (strip s) -> In c s.
Proof.
  unfold strip. intros H.
  destruct (rstrip_prefix (lstrip s)) as [d Hd].
  destruct (lstrip_suffix s) as [e He].
  rewrite He. apply in_or_app. right. rewrite Hd. apply in_or_app. now left.
Qed.

Lemma unmark_no_asterisk (line : str) : ~ In "*"%char (unmark line).
Proof.
  unfold unmark. intros H. apply strip_chars in H.
  change (lit "*") with ["*"%char] in H. rewrite replace_char_nil in H.
  apply filter_In in H as [_ H]. discriminate.
Qed.

Lemma line_pairs_map (lines : list str) :
  exists sides,
    line_pairs lines = map card_record sides /\
    Forall (fun side =>
              fst side <> [] /\ snd side <> [] /\
              trimmed (fst side) /\ trimmed (snd side) /\
              ~ In "*"%char (fst side) /\ ~ In "*"%char (snd side))
           sides.
Proof.
  assert (H : forall n lines, length lines <= n ->
            exists sides,
              line_pairs lines = map card_record sides /\
              Forall (fun side =>
                        fst side <> [] /\ snd side <> [] /\
                        trimmed (fst side) /\ trimmed (snd side) /\
                        ~ In "*"%char (fst side) /\ ~ In "*"%char (snd side))
                     sides).
  { induction n as [|n IH]; intros [|l1 [|l2 rest]] Hlen;
      try (exists []; split; [reflexivity | constructor]);
      cbn [length] in Hlen; try lia.
    destruct (IH rest) as (sides & Heq & Hall); [lia|].
    cbn [line_pairs]. cbv zeta.
    pose proof (unmark_no_asterisk l1) as Hf.
    pose proof (unmark_no_asterisk l2) as Hb.
    assert (Htf : trimmed (unmark l1)) by apply strip_trimmed.
    assert (Htb : trimmed (unmark l2)) by apply strip_trimmed.
    destruct (unmark l1) as [|f front]; [now exists sides|].
    destruct (unmark l2) as [|b back]; [now exists sides|].
    exists ((f :: front, b :: back) :: sides). split.
    - cbn [map]. now rewrite Heq.
    - constructor; [|exact Hall]. cbn [fst snd].
      split; [discriminate|]. split; [discriminate|].
      split; [exact Htf|]. split; [exact Htb|]. split; [exact Hf | exact Hb]. }
  now apply (H (length lines)).
Qed.

Lemma line_pairs_sides (lines : list str) :
  line_pairs lines
  = map card_record
        (filter both_sides
                (map (fun pair => (unmark (fst pair), unmark (snd pair)))
                     (pair_up lines))).
Proof.
  assert (H : forall n lines, length lines <= n ->
            line_pairs lines
            = map card_record
                  (filter both_sides
                          (map (fun pair => (unmark (fst pair), unmark (snd pair)))
                               (pair_up lines)))).
  { induction n as [|n IH]; intros [|l1 [|l2 rest]] Hlen; try reflexivity;
      cbn [length] in Hlen; try lia.
    cbn [line_pairs pair_up map filter]. cbv zeta.
    rewrite (IH rest) by lia. unfold both_sides at 2. cbn [fst snd].
    destruct (unmark l1) as [|f front]; [reflexivity|].
    destruct (unmark l2) as [|b back]; reflexivity. }
  now apply (H (length lines)).
Qed.

Lemma fallback_flashcard_sides (text : str) :
  _fallback_flashcard_parsing text
  = JArray (map card_record (firstn 10 (card_sides text))).
Proof.
  unfold _fallback_flashcard_parsing, card_sides. cbv zeta.
  now rewrite line_pairs_sides, firstn_map.
Qed.

(** X20: the flashcard fallback returns at most 10 records; each has a
    non-empty front and a non-empty back, both without surrounding
    whitespace and without any asterisk. *)
Theorem fallback_flashcard_records (text : str) :
  exists sides,
    _fallback_flashcard_parsing text = JArray (map card_record sides) /\
    length sides <= 10 /\
    Forall (fun side =>
              fst side <> [] /\ snd side <> [] /\
              trimmed (fst side) /\ trimmed (snd side) /\
              ~ In "*"%char (fst side) /\ ~ In "*"%char (snd side))
           sides.
Proof.
  unfold _fallback_flashcard_parsing. cbv zeta.
  destruct (line_pairs_map
              (map strip
                   (filter (fun line => negb (str_eqb (strip line) []))
                           (split_on [nl] text)))) as (sides & Heq & Hall).
  rewrite Heq, firstn_map. eexists. split; [reflexivity|]. split.
  - rewrite length_firstn. lia.
  - apply Forall_forall. intros side Hin. apply In_firstn in Hin.
    rewrite Forall_forall in Hall. now apply Hall.
Qed.

(** ** The bracket pattern *)

Lemma rep_reaches_continuation (A : Type) (greedy : bool) (lo : nat)
      (hi : option nat) (p : ascii -> bool) (prev : option ascii) (s : str)
      (k : option ascii -> str -> option A) (x : A) :
  rep greedy lo hi p prev s k = Some x ->
  exists taken prev' t, s = taken ++ t /\ k prev' t = Some x.
Proof.
  revert lo hi prev. induction s as [|c s IH]; intros lo hi prev H.
  - cbn [rep] in H. destruct lo; [|discriminate]. now exists [], prev, [].
  - cbn [rep] in H.
    assert (Hmore : (if hi_allows hi && p c
                     then rep greedy (pred lo) (hi_pred hi) p (Some c) s k
                     else None) = Some x ->
                    exists taken prev' t, c :: s = taken ++ t /\ k prev' t = Some x).
    { destruct (hi_allows hi && p c); [|discriminate]. intros Hm.
      destruct (IH _ _ _ Hm) as (taken & prev' & t & -> & Hk).
      now exists (c :: taken), prev', t. }
    destruct lo as [|lo]; [|now apply Hmore].
    destruct greedy.
    + destruct (if hi_allows hi && p c then _ else None) eqn:E.
      * apply Hmore. congruence.
      * now exists [], prev, (c :: s).
    + destruct (k prev (c :: s)) eqn:E.
      * injection H as <-. now exists [], prev, (c :: s).
      * now apply Hmore.
Qed.

Lemma search_from_found (r : regex) (prev : option ascii) (s : str)
      (m : rmatch_result) :
  search_from r prev s = Some m ->
  exists before prev' s', s = before ++ s' /\ match_here r prev' s' = Some m.
Proof.
  revert prev. induction s as [|c s IH]; intros prev H; cbn [search_from] in H.
  - destruct (match_here r prev []) eqn:E; [|discriminate].
    injection H as <-. now exists [], prev, [].
  - destruct (match_here r prev (c :: s)) eqn:E.
    + injection H as <-. now exists [], prev, (c :: s).
    + destruct (IH _ H) as (before & prev' & s' & -> & Hm).
      now exists (c :: before), prev', s'.
Qed.

Lemma firstn_prefix (l t : str) :
  firstn (length (l ++ t) - length t) (l ++ t) = l.
Proof.
  rewrite length_app. replace (length l + length t - length t) with (length l)
    by lia.
  rewrite firstn_app, Nat.sub_diag, firstn_all. cbn [firstn]. apply app_nil_r.
Qed.

Lemma match_here_json_pattern (prev : option ascii) (s : str) :
  match_here json_pattern prev s =
  match s with
  | c :: s' =>
      if ascii_eqb "[" c
      then rep true 0 None any_char (Some c) s' (close_bracket s)
      else None
  | [] => None
  end.
Proof. destruct s; reflexivity. Qed.

Lemma ascii_eqb_eq (a b : ascii) : ascii_eqb a b = true <-> a = b.
Proof. apply Ascii.eqb_eq. Qed.

(** A match of the bracket pattern starts with an opening bracket and
    ends with a closing one. *)
Lemma json_pattern_match_shape (prev : option ascii) (s : str)
      (m : rmatch_result) :
  match_here json_pattern prev s = Some m ->
  exists inside,
    s = "["%char :: inside ++ "]"%char :: m_rest m /\
    m_text m = "["%char :: inside ++ ["]"%char].
Proof.
  rewrite match_here_json_pattern. destruct s as [|c s']; [discriminate|].
  destruct (ascii_eqb "[" c) eqn:Ec; [|discriminate].
  apply ascii_eqb_eq in Ec. subst c. intros H.
  apply rep_reaches_continuation in H as (inside & prev' & t & -> & Hk).
  unfold close_bracket in Hk. destruct t as [|d t']; [discriminate|].
  destruct (ascii_eqb "]" d) eqn:Ed; [|discriminate].
  apply ascii_eqb_eq in Ed. subst d. injection Hk as <-. unfold m_rest, m_text.
  exists inside. split; [reflexivity|].
  assert (HS : "["%char :: inside ++ "]"%char :: t'
               = ("["%char :: inside ++ ["]"%char]) ++ t')
    by (cbn [app]; now rewrite <- app_assoc).
  pose proof (firstn_prefix ("["%char :: inside ++ ["]"%char]) t') as H.
  rewrite <- HS in H. exact H.
Qed.

Lemma rep_any_finds (A : Type) (prev : option ascii) (inside t : str)
      (k : option ascii -> str -> option A) :
  (forall prev', k prev' t <> None) ->
  rep true 0 None any_char prev (inside ++ t) k <> None.
Proof.
  intros Hk. revert prev. induction inside as [|c inside IH]; intros prev.
  - cbn [app]. destruct t as [|d t'];
      cbn [rep hi_allows hi_pred pred any_char andb]; [apply Hk|].
    destruct (rep true 0 None any_char (Some d) t' k);
      [discriminate | apply Hk].
  - cbn [app rep hi_allows hi_pred pred any_char andb].
    destruct (rep true 0 None any_char (Some c) (inside ++ t) k) eqn:E;
      [discriminate|]. now apply IH in E.
Qed.

(** The bracket pattern is found exactly in the texts that hold an
    opening bracket with a closing bracket after it. *)
Lemma re_search_json_pattern (text : str) :
  re_search json_pattern text <> None <-> bracketed text.
Proof.
  split.
  - destruct (re_search json_pattern text) as [m|] eqn:E; [|congruence].
    intros _. apply search_from_found in E as (before & prev' & s' & -> & Hm).
    apply json_pattern_match_shape in Hm as (inside & -> & _).
    now exists before, inside, (m_rest m).
  - intros (before & inside & after & ->). unfold re_search.
    generalize (@None ascii).
    induction before as [|c before IH]; intros prev.
    + cbn [app search_from]. rewrite match_here_json_pattern.
      change (ascii_eqb "[" "[") with true. cbv iota.
      destruct (rep true 0 None any_char (Some "["%char)
                    (inside ++ "]"%char :: after)
                    (close_bracket ("["%char :: inside ++ "]"%char :: after)))
        eqn:E; [discriminate|].
      exfalso. revert E. apply rep_any_finds. intros prev'. discriminate.
    + cbn [app search_from].
      destruct (match_here json_pattern prev _); [discriminate | apply IH].
Qed.

(** ** The decoder's result and the brackets of its input *)

Lemma complete_bottom (arr : bool) (v : json) (stack : list frame)
      (e' : expect) (stack' : list frame) :
  bottom_is arr stack = true ->
  complete v stack = Some (e', stack') ->
  bottom_is arr stack' = true /\ not_done e' = true.
Proof.
  intros Hb H. destruct stack as [|[acc | acc [k|]] rest]; cbn in H;
    try discriminate; injection H as <- <-;
    (split; [|reflexivity]); destruct rest; cbn in Hb |- *; assumption.
Qed.

Lemma bottom_is_tail (arr : bool) (f g : frame) (rest : list frame) :
  bottom_is arr (f :: g :: rest) = bottom_is arr (g :: rest).
Proof. reflexivity. Qed.

(** One token either leaves the outermost container open, or closes it
    with the bracket of its kind and ends the document with a value of
    that kind. *)
Lemma parse_step_bottom (arr : bool) (e : expect) (stack : list frame)
      (t : token) (e' : expect) (stack' : list frame) :
  bottom_is arr stack = true -> not_done e = true ->
  parse_step e stack t = Some (e', stack') ->
  (bottom_is arr stack' = true /\ not_done e' = true) \/
  (stack' = [] /\ exists v, e' = PDone v /\ kind_is arr v = true /\
                            t = if arr then TRBracket else TRBrace).
Proof.
  intros Hb He H.
  assert (Hpop : forall v f rest,
             stack = f :: rest ->
             (rest = [] ->
              kind_is arr v = true /\
              t = if arr then TRBracket else TRBrace) ->
             complete v rest = Some (e', stack') ->
             (bottom_is arr stack' = true /\ not_done e' = true) \/
             (stack' = [] /\ exists v, e' = PDone v /\ kind_is arr v = true /\
                                       t = if arr then TRBracket else TRBrace)).
  { intros v f rest -> Hlast Hc. destruct rest as [|g rest].
    - cbn in Hc. injection Hc as <- <-. right. split; [reflexivity|].
      exists v. destruct (Hlast eq_refl) as [Hk Ht]. now repeat split.
    - left. rewrite bottom_is_tail in Hb. eapply complete_bottom; eassumption. }
  destruct stack as [|f rest]; [discriminate|].
  destruct e; try discriminate He;
    destruct t; cbn [parse_step] in H; try discriminate H;
    try (left; eapply complete_bottom; eassumption);
    try (injection H as <- <-; left; split; [|reflexivity];
         destruct f; exact Hb).
  all: destruct f as [acc | acc [k|]]; try discriminate H.
  all: try (injection H as <- <-; left; split; [|reflexivity]; exact Hb).
  all: eapply Hpop; try eassumption; try reflexivity.
  all: intros ->; cbn in Hb; destruct arr; try discriminate Hb; now split.
Qed.

Lemma parse_done (v0 : json) (stack : list frame) (toks : list token)
      (v : json) :
  parse (PDone v0) stack toks = Some v -> toks = [] /\ v = v0.
Proof.
  destruct toks as [|t toks]; cbn [parse].
  - intros H. injection H as <-. now split.
  - destruct t; discriminate.
Qed.

(** While the outermost container is open, the document can only end
    through the bracket that closes it, with a value of its kind. *)
Lemma parse_bottom (arr : bool) (toks : list token) (e : expect)
      (stack : list frame) (v : json) :
  bottom_is arr stack = true -> not_done e = true ->
  parse e stack toks = Some v ->
  kind_is arr v = true /\ In (if arr then TRBracket else TRBrace) toks.
Proof.
  revert e stack. induction toks as [|t toks IH]; intros e stack Hb He H.
  - cbn [parse] in H. destruct e; discriminate.
  - cbn [parse] in H.
    destruct (parse_step e stack t) as [[e' stack']|] eqn:Hstep; [|discriminate].
    destruct (@parse_step_bottom _ _ _ _ _ _ Hb He Hstep)
      as [[Hb' He'] | (-> & v0 & -> & Hk & ->)].
    + destruct (IH _ _ Hb' He' H) as [Hk Hin]. split; [exact Hk | now right].
    + apply parse_done in H as [-> ->]. split; [exact Hk | now left].
Qed.

(** A document that decodes to a list opens with a bracket and holds a
    closing bracket later on. *)
Lemma parse_list_tokens (toks : list token) (v : json) :
  forallb token_scalar toks = true ->
  parse PValue [] toks = Some v -> is_list v = true ->
  exists rest, toks = TLBracket :: rest /\ In TRBracket rest.
Proof.
  intros Hscalar H Hlist. destruct toks as [|t rest]; [discriminate|].
  cbn [forallb] in Hscalar. apply andb_true_iff in Hscalar as [Ht _].
  cbn [parse] in H. destruct t; cbn [parse_step complete] in H;
    try discriminate H.
  - exists rest. split; [reflexivity|].
    now apply (@parse_bottom true rest PValueOrEnd [FArray []] v).
  - apply (@parse_bottom false rest PKeyOrEnd [FObject [] None] v) in H
      as [Hk _]; try reflexivity.
    destruct v; discriminate.
  - apply parse_done in H as [_ ->]. destruct v0; discriminate.
  - apply parse_done in H as [_ ->]. discriminate.
Qed.

Ltac in_cases :=
  let Hin := fresh "Hin" in
  intros Hin; cbn [In] in Hin;
  repeat (destruct Hin as [Hin | Hin]);
  try discriminate Hin; try contradiction;
  try match goal with
      | E : ascii_eqb _ _ = true |- _ = _ => now apply ascii_eqb_eq in E
      end.

Ltac split_ifs H :=
  repeat match type of H with
         | (if ?b then _ else _) = Some _ => destruct b eqn:?
         end;
  try discriminate H.

Lemma start_char_facts (c : ascii) (emitted : list token) (mode' : lex_mode) :
  start_char c = Some (emitted, mode') ->
  mode_scalar mode' = true /\ forallb token_scalar emitted = true /\
  (In TRBracket emitted -> c = "]"%char) /\
  (In TLBracket emitted -> c = "["%char).
Proof.
  unfold start_char. intros H.
  split_ifs H; injection H as <- <-;
    (split; [reflexivity|]); (split; [reflexivity|]); split; in_cases.
Qed.

Lemma lex_step_facts (mode : lex_mode) (c : ascii) (emitted : list token)
      (mode' : lex_mode) :
  mode_scalar mode = true ->
  lex_step mode c = Some (emitted, mode') ->
  mode_scalar mode' = true /\ forallb token_scalar emitted = true /\
  (In TRBracket emitted -> c = "]"%char) /\
  (In TLBracket emitted -> c = "["%char).
Proof.
  intros Hm H. destruct mode as [|acc|acc|acc n|st acc|expected tok];
    cbn [lex_step] in H.
  - now apply start_char_facts.
  - split_ifs H; injection H as <- <-;
      (split; [reflexivity|]); (split; [reflexivity|]); split; in_cases.
  - split_ifs H; injection H as <- <-;
      (split; [reflexivity|]); (split; [reflexivity|]); split; in_cases.
  - destruct (is_hex c); [|discriminate].
    destruct n as [|[|m]]; injection H as <- <-;
      (split; [reflexivity|]); (split; [reflexivity|]); split; in_cases.
  - destruct (num_step st c) as [st'|].
    + injection H as <- <-.
      (split; [reflexivity|]); (split; [reflexivity|]); split; in_cases.
    + assert (Hacc : (if num_accepting st
                      then match start_char c with
                           | Some (toks, mode'0) =>
                               Some (TAtom (JNumber (rev acc)) :: toks, mode'0)
                           | None => None
                           end
                      else None) = Some (emitted, mode') ->
                     mode_scalar mode' = true /\
                     forallb token_scalar emitted = true /\
                     (In TRBracket emitted -> c = "]"%char) /\
                     (In TLBracket emitted -> c = "["%char)).
      { destruct (num_accepting st); [|discriminate].
        destruct (start_char c) as [[toks m]|] eqn:Es; [|discriminate].
        intros Hx. injection Hx as <- <-.
        destruct (@start_char_facts _ _ _ Es) as (H1 & H2 & H3 & H4).
        split; [exact H1|]. split; [exact H2|]. split.
        - intros [Hin | Hin]; [discriminate | now apply H3].
        - intros [Hin | Hin]; [discriminate | now apply H4]. }
      destruct st; try (now apply Hacc).
      destruct (ascii_eqb c "I"); [|discriminate]. injection H as <- <-.
      (split; [reflexivity|]); (split; [reflexivity|]); split; in_cases.
  - assert (Htok : token_scalar tok = true /\ tok <> TRBracket /\ tok <> TLBracket).
    { destruct tok; try discriminate Hm.
      split; [exact Hm|]. split; discriminate. }
    destruct Htok as (Hs & Hr & Hl).
    destruct expected as [|x [|y expected]]; [discriminate| |];
      (destruct (ascii_eqb c x); [|discriminate]); injection H as <- <-.
    + split; [reflexivity|]. split; [cbn [forallb]; now rewrite Hs|].
      split; intros [Hin | []]; congruence.
    + split; [exact Hm|]. split; [reflexivity|]. split; in_cases.
Qed.

Lemma lex_facts (s : str) (mode : lex_mode) (toks : list token) :
  mode_scalar mode = true -> lex mode s = Some toks ->
  forallb token_scalar toks = true /\
  (In TRBracket toks -> In "]"%char s) /\
  (forall before after,
      toks = before ++ TLBracket :: after -> In TRBracket after ->
      bracketed s).
Proof.
  revert mode toks. induction s as [|c s IH]; intros mode toks Hm H.
  - cbn [lex] in H.
    assert (Hcase : toks = [] \/ exists n, toks = [TAtom (JNumber n)]).
    { destruct mode; try discriminate H.
      - injection H as <-. now left.
      - destruct (num_accepting st); [|discriminate]. injection H as <-.
        right. now eexists. }
    destruct Hcase as [-> | [n ->]].
    + repeat split; [intros [] |]. intros [|] ? ?; discriminate.
    + repeat split.
      * intros [Hin | []]. discriminate.
      * intros [|t [|]] after Heq; try discriminate Heq.
  - cbn [lex] in H.
    destruct (lex_step mode c) as [[emitted mode']|] eqn:Hstep; [|discriminate].
    destruct (lex mode' s) as [rest|] eqn:Hrest; [|discriminate].
    injection H as <-.
    destruct (@lex_step_facts _ _ _ _ Hm Hstep) as (Hm' & Hse & Hr & Hl).
    destruct (IH _ _ Hm' Hrest) as (Hsr & Hrr & Hbr).
    repeat split.
    + rewrite forallb_app, Hse, Hsr. reflexivity.
    + intros Hin. apply in_app_or in Hin as [Hin | Hin].
      * left. now apply Hr.
      * right. now apply Hrr.
    + intros before after Heq Hafter.
      apply app_eq_app in Heq as [l [[He Ha] | [Hb Ha]]].
      * destruct l as [|t l].
        -- cbn [app] in Ha. rewrite app_nil_r in He. subst before.
           destruct (Hbr [] after (eq_sym Ha) Hafter) as (b & i & a & ->).
           now exists (c :: b), i, a.
        -- cbn [app] in Ha. injection Ha as <- ->.
           assert (Hc : c = "["%char).
           { apply Hl. rewrite He. apply in_or_app. right. now left. }
           subst c. apply in_app_or in Hafter as [Hin | Hin].
           ++ assert (Hc : "["%char = "]"%char).
              { apply Hr. rewrite He. apply in_or_app. right. now right. }
              discriminate.
           ++ apply Hrr in Hin. apply in_split in Hin as (i & a & ->).
              now exists [], i, a.
      * destruct (Hbr l after Ha Hafter) as (b & i & a & ->).
        now exists (c :: b), i, a.
Qed.

(** If [json.loads] returns a list, its input holds an opening bracket
    and a closing bracket after it. *)
Lemma json_loads_list_bracketed (text : str) (v : json) :
  json_loads text = Some v -> is_list v = true -> bracketed text.
Proof.
  unfold json_loads. destruct (lex LStart text) as [toks|] eqn:Hlex;
    [|discriminate].
  intros Hp Hl.
  destruct (@lex_facts text LStart toks eq_refl Hlex) as (Hs & _ & Hb).
  destruct (@parse_list_tokens _ _ Hs Hp Hl) as (rest & -> & Hin).
  now apply (Hb [] rest).
Qed.

(** What [json.loads] makes of a text that starts with an opening
    bracket is a list. *)
Lemma json_loads_bracket_list (rest : str) (v : json) :
  json_loads ("["%char :: rest) = Some v -> is_list v = true.
Proof.
  unfold json_loads. cbn [lex]. change (lex_step LStart "[") with
    (Some ([TLBracket], LStart)).
  intros H. cbv beta iota in H.
  destruct (lex LStart rest) as [toks|]; [|discriminate H].
  cbn [app parse parse_step] in H.
  apply (@parse_bottom true toks PValueOrEnd [FArray []] v) in H as [Hk _];
    try reflexivity.
  destruct v; try discriminate Hk. reflexivity.
Qed.

(** X21: a reply that holds an opening bracket with a closing bracket after
    it, and that stays within the interpreter's limits on nesting and on
    the digits of an integer, always yields a list, from either parser:
    the value decoded from the bracketed part, or the fallback's
    records. *)
Theorem parsers_list_when_bracketed (py : Interpreter) (json_text : str) :
  bracketed json_text -> within_limits py json_text ->
  is_list (_parse_quiz_json json_text) = true /\
  is_list (_parse_flashcard_json json_text) = true.
Proof.
  intros Hb _. apply re_search_json_pattern in Hb.
  unfold _parse_quiz_json, _parse_flashcard_json. cbv zeta.
  destruct (re_search json_pattern json_text) as [m|] eqn:Hs; [|congruence].
  apply search_from_found in Hs as (before & prev' & s' & _ & Hm).
  apply json_pattern_match_shape in Hm as (inside & _ & ->).
  destruct (json_loads ("["%char :: inside ++ ["]"%char])) as [v|] eqn:Hl.
  - apply json_loads_bracket_list in Hl. now split.
  - split; reflexivity.
Qed.

Lemma parsers_list_when_bracketed_witness :
  is_list (_parse_quiz_json single_question) = true /\
  is_list (_parse_flashcard_json single_question) = true.
Proof.
  apply (@parsers_list_when_bracketed small_interpreter single_question).
  - exists (lit "{" ++ quoted "question" ++ lit ": " ++ quoted "Q" ++ lit ", "
                ++ quoted "options" ++ lit ": "),
      (quoted "A) x" ++ lit ", " ++ quoted "B) y"), (lit "}").
    reflexivity.
  - split; [apply Nat.leb_le; reflexivity | right; reflexivity].
Defined.

(** X22: without such a pair of brackets in the reply, whatever [json.loads]
    accepts is returned as it is by both parsers, and it is never a
    list. *)
Theorem parsers_non_list_without_brackets (json_text : str) (v : json) :
  ~ bracketed json_text -> json_loads json_text = Some v ->
  _parse_quiz_json json_text = v /\ _parse_flashcard_json json_text = v /\
  is_list v = false.
Proof.
  intros Hnb Hl.
  assert (Hs : re_search json_pattern json_text = None).
  { destruct (re_search json_pattern json_text) eqn:E; [|reflexivity].
    exfalso. apply Hnb, re_search_json_pattern. congruence. }
  unfold _parse_quiz_json, _parse_flashcard_json. cbv zeta. rewrite Hs, Hl.
  repeat split. destruct (is_list v) eqn:E; [|reflexivity].
  exfalso. apply Hnb. eapply json_loads_list_bracketed; eassumption.
Qed.

Lemma parsers_non_list_without_brackets_witness :
  _parse_quiz_json (lit "42") = JNumber (lit "42") /\
  _parse_flashcard_json (lit "42") = JNumber (lit "42") /\
  is_list (JNumber (lit "42")) = false.
Proof.
  apply parsers_non_list_without_brackets.
  - intros Hb. apply re_search_json_pattern in Hb. apply Hb.
    vm_compute. reflexivity.
  - vm_compute. reflexivity.
Defined.

Lemma rep_any_no_bracket (s : str) (prev : option ascii) (t : str) :
  ~ In "]"%char t ->
  rep true 0 None any_char prev t (close_bracket s) = None.
Proof.
  revert prev. induction t as [|c t IH]; intros prev Hn; [reflexivity|].
  cbn [rep hi_allows hi_pred pred any_char andb].
  rewrite IH by (intros H; apply Hn; now right).
  unfold close_bracket. destruct (ascii_eqb "]" c) eqn:E; [|reflexivity].
  apply ascii_eqb_eq in E. exfalso. apply Hn. now left.
Qed.

Lemma rep_any_last_bracket (s : str) (prev : option ascii)
      (inside after : str) :
  ~ In "]"%char after ->
  rep true 0 None any_char prev (inside ++ "]"%char :: after) (close_bracket s)
  = Some (MkMatch (firstn (length s - length after) s) after []).
Proof.
  intros Hn. revert prev. induction inside as [|c inside IH]; intros prev;
    cbn [app rep hi_allows hi_pred pred any_char andb].
  - now rewrite rep_any_no_bracket.
  - now rewrite IH.
Qed.

(** In a text whose first opening bracket is followed by [inside] and
    whose last closing bracket comes just after, the bracket pattern
    finds exactly the part from the one to the other. *)
Lemma re_search_embedded (before inside after : str) :
  ~ In "["%char before -> ~ In "]"%char after ->
  re_search json_pattern (before ++ "["%char :: inside ++ "]"%char :: after)
  = Some (MkMatch ("["%char :: inside ++ ["]"%char]) after []).
Proof.
  intros Hb Ha. unfold re_search. generalize (@None ascii).
  induction before as [|c before IH]; intros prev.
  - cbn [app]. destruct inside as [|i inside];
      cbn [app search_from]; rewrite match_here_json_pattern;
      change (ascii_eqb "[" "[") with true; cbv iota;
      [rewrite (@rep_any_last_bracket _ _ [] after Ha)
      |rewrite (@rep_any_last_bracket _ _ (i :: inside) after Ha)];
      do 2 f_equal.
    + apply (firstn_prefix ["["%char; "]"%char] after).
    + pose proof (firstn_prefix ("["%char :: (i :: inside) ++ ["]"%char]) after)
        as H.
      assert (HS : ("["%char :: (i :: inside) ++ ["]"%char]) ++ after
                   = "["%char :: (i :: inside) ++ "]"%char :: after)
        by (cbn [app]; now rewrite <- app_assoc).
      rewrite HS in H. exact H.
  - cbn [app search_from]. rewrite match_here_json_pattern.
    destruct (ascii_eqb "[" c) eqn:E.
    + apply ascii_eqb_eq in E. exfalso. apply Hb. now left.
    + apply IH. intros H. apply Hb. now right.
Qed.

(** X23: prose around a JSON array is ignored: when the text before the
    array holds no opening bracket, the text after it no closing one and
    [json.loads] accepts the array, both parsers return its value. *)
Theorem parsers_extract_embedded_array (before inside after : str) (v : json) :
  ~ In "["%char before -> ~ In "]"%char after ->
  json_loads ("["%char :: inside ++ ["]"%char]) = Some v ->
  _parse_quiz_json (before ++ "["%char :: inside ++ "]"%char :: after) = v /\
  _parse_flashcard_json (before ++ "["%char :: inside ++ "]"%char :: after) = v.
Proof.
  intros Hb Ha Hl. unfold _parse_quiz_json, _parse_flashcard_json. cbv zeta.
  rewrite (@re_search_embedded before inside after Hb Ha). cbn [m_text]. rewrite Hl.
  now split.
Qed.

Lemma parsers_extract_embedded_array_witness :
  _parse_quiz_json (lit "Here: " ++ "["%char :: lit "1, 2" ++ "]"%char :: lit " Enjoy!")
  = JArray [JNumber (lit "1"); JNumber (lit "2")] /\
  _parse_flashcard_json
    (lit "Here: " ++ "["%char :: lit "1, 2" ++ "]"%char :: lit " Enjoy!")
  = JArray [JNumber (lit "1"); JNumber (lit "2")].
Proof.
  apply (@parsers_extract_embedded_array (lit "Here: ") (lit "1, 2")
           (lit " Enjoy!")).
  - vm_compute. intuition discriminate.
  - vm_compute. intuition discriminate.
  - vm_compute. reflexivity.
Defined.

(** C9, amended: the two parsers share the strict stage and nothing
    else.  On a reply within the interpreter's limits, when [json.loads]
    accepts the bracketed part (or the whole text when there is none),
    both return its value.  When it rejects it, each returns its own
    fallback: the quiz parser the records of the first 5 lines that,
    stripped, are not empty and hold a question mark or end with a
    period; the flashcard parser the records of the first 10 pairs of
    consecutive non-blank lines whose two sides, without asterisks and
    stripped, are not empty. *)
Theorem parsers_share_strict_stage_only (py : Interpreter) (json_text : str) :
  within_limits py json_text ->
  match strict_parse json_text with
  | Some v =>
      _parse_quiz_json json_text = v /\ _parse_flashcard_json json_text = v
  | None =>
      _parse_quiz_json json_text
      = JArray (map question_record
                    (firstn 5 (filter keeps_question
                                      (map strip (split_on [nl] json_text))))) /\
      _parse_flashcard_json json_text
      = JArray (map card_record (firstn 10 (card_sides json_text)))
  end.
Proof.
  intros _.
  assert (Hq : _parse_quiz_json json_text
               = match strict_parse json_text with
                 | Some v => v
                 | None => _fallback_question_parsing json_text
                 end) by reflexivity.
  assert (Hf : _parse_flashcard_json json_text
               = match strict_parse json_text with
                 | Some v => v
                 | None => _fallback_flashcard_parsing json_text
                 end) by reflexivity.
  rewrite Hq, Hf. destruct (strict_parse json_text) as [v|].
  - now split.
  - split; [apply fallback_question_kept | apply fallback_flashcard_sides].
Qed.

Lemma parsers_share_strict_stage_only_witness :
  _parse_quiz_json question_answer_lines
  = JArray (map question_record
                (firstn 5 (filter keeps_question
                                  (map strip (split_on [nl] question_answer_lines))))) /\
  _parse_flashcard_json question_answer_lines
  = JArray (map card_record (firstn 10 (card_sides question_answer_lines))).
Proof.
  apply (@parsers_share_strict_stage_only small_interpreter
           question_answer_lines).
  split; [apply Nat.leb_le; reflexivity | right; reflexivity].
Defined.

(** ** The Anki export *)

Lemma count_char_app (c : ascii) (a b : str) :
  count_char c (a ++ b) = count_char c a + count_char c b.
Proof. unfold count_char. now rewrite filter_app, length_app. Qed.

Lemma count_char_absent (c : ascii) (s : str) :
  ~ In c s -> count_char c s = 0.
Proof.
  intros Hn. unfold count_char. rewrite filter_none; [reflexivity|].
  intros x Hx. destruct (ascii_eqb c x) eqn:E; [|reflexivity].
  apply ascii_eqb_eq in E. subst. contradiction.
Qed.

Lemma split_char_pieces (c : ascii) (cur s piece : str) :
  In piece (split_on_go [c] 0 cur s) -> ~ In c cur -> ~ In c piece.
Proof.
  revert cur. induction s as [|x s IH]; intros cur Hp Hn.
  - cbn [split_on_go] in Hp. destruct Hp as [<- | []].
    intros H. apply Hn. now apply in_rev.
  - cbn [split_on_go startswith length Nat.sub andb] in Hp.
    rewrite andb_true_r in Hp. destruct (ascii_eqb c x) eqn:E.
    + destruct Hp as [<- | Hp].
      * intros H. apply Hn. now apply in_rev.
      * apply (IH [] Hp). intros [].
    + apply (IH (x :: cur) Hp). intros [-> | H]; [|contradiction].
      unfold ascii_eqb in E. now rewrite Ascii.eqb_refl in E.
Qed.

Lemma join_chars (sep : str) (pieces : list str) (d : ascii) :
  In d (join sep pieces) ->
  (exists piece, In piece pieces /\ In d piece) \/ In d sep.
Proof.
  induction pieces as [|p pieces IH]; [contradiction|].
  destruct pieces as [|q pieces].
  - cbn [join]. intros H. left. exists p. split; [now left | exact H].
  - change (join sep (p :: q :: pieces)) with (p ++ sep ++ join sep (q :: pieces)).
    intros H. apply in_app_or in H as [H | H].
    + left. exists p. split; [now left | exact H].
    + apply in_app_or in H as [H | H]; [now right|].
      destruct (IH H) as [(piece & Hp & Hd) | Hs]; [|now right].
      left. exists piece. split; [now right | exact Hd].
Qed.

(** After [replace] of a character, what is left is made of the other
    characters of the text and of the replacement. *)
Lemma replace_char_chars (c : ascii) (new s : str) (d : ascii) :
  In d (replace [c] new s) -> (In d s /\ d <> c) \/ In d new.
Proof.
  unfold replace, split_on. intros H.
  apply join_chars in H as [(piece & Hp & Hd) | Hn]; [left | now right].
  split.
  - destruct (@split_on_go_chars _ _ _ _ _ d Hp Hd) as [[] | Hs]. exact Hs.
  - intros ->. revert Hd. apply (@split_char_pieces c [] s piece Hp).
    intros [].
Qed.

Lemma anki_field_clean (text : str) :
  ~ In nl (anki_field text) /\ ~ In tab (anki_field text).
Proof.
  unfold anki_field. split; intros H.
  - apply replace_char_chars in H as [[H _] | H].
    + apply replace_char_chars in H as [[_ H] | H]; [congruence|].
      vm_compute in H. intuition discriminate.
    + vm_compute in H. intuition discriminate.
  - apply replace_char_chars in H as [[_ H] | H]; [congruence|].
    vm_compute in H. intuition discriminate.
Qed.

Lemma anki_row_counts (card_type : str) (c : card) :
  ~ In nl card_type -> ~ In tab card_type ->
  count_char nl (anki_row card_type c) = 1 /\
  count_char tab (anki_row card_type c) = 2.
Proof.
  intros Hn Ht. unfold anki_row.
  destruct (anki_field_clean (dict_get c (lit "front") [])) as [Hfn Hft].
  destruct (anki_field_clean (dict_get c (lit "back") [])) as [Hbn Hbt].
  rewrite !count_char_app.
  rewrite (@count_char_absent _ _ Hfn), (@count_char_absent _ _ Hbn),
    (@count_char_absent _ _ Hft), (@count_char_absent _ _ Hbt),
    (@count_char_absent _ _ Hn), (@count_char_absent _ _ Ht).
  split; reflexivity.
Qed.

(** X24: the export is a well-formed table: when no card type holds a tab or
    a line break, it has one line break per card and two tabs per card,
    whatever the fronts and backs contain. *)
Theorem create_anki_export_table (cards : flashcard_set) :
  (forall entry, In entry cards ->
                 ~ In nl (fst entry) /\ ~ In tab (fst entry)) ->
  count_char nl (create_anki_export cards) = length (flat_map snd cards) /\
  count_char tab (create_anki_export cards) = 2 * length (flat_map snd cards).
Proof.
  unfold create_anki_export. induction cards as [|[card_type cs] cards IH];
    intros Htypes; [split; reflexivity|].
  cbn [flat_map fst snd]. rewrite concat_app, !count_char_app, length_app.
  destruct IH as [IHn IHt]; [intros e He; apply Htypes; now right|].
  rewrite IHn, IHt.
  destruct (Htypes (card_type, cs) (or_introl eq_refl)) as [Hn Ht].
  cbn [fst] in Hn, Ht.
  assert (Hrows : count_char nl (concat (map (anki_row card_type) cs)) = length cs
                  /\ count_char tab (concat (map (anki_row card_type) cs))
                     = 2 * length cs).
  { clear -Hn Ht. induction cs as [|c cs [IHn IHt]]; [split; reflexivity|].
    cbn [map concat length]. rewrite !count_char_app, IHn, IHt.
    destruct (@anki_row_counts card_type c Hn Ht) as [-> ->]. split; lia. }
  destruct Hrows as [-> ->]. split; lia.
Qed.

Lemma create_anki_export_table_witness :
  let cards :=
    [(lit "concepts",
      [[(lit "front", lit "What is" ++ [tab] ++ lit "X?");
        (lit "back", lit "X is" ++ [nl] ++ lit "Y.")]])] in
  count_char nl (create_anki_export cards) = length (flat_map snd cards) /\
  count_char tab (create_anki_export cards) = 2 * length (flat_map snd cards).
Proof.
  apply create_anki_export_table.
  intros entry [<- | []]. vm_compute. intuition discriminate.
Defined.

(** ** The display formatter *)

Lemma lstrip_id (s : str) : first_char_space s = false -> lstrip s = s.
Proof.
  destruct s as [|c s]; [reflexivity|]. cbn [first_char_space lstrip].
  now intros ->.
Qed.

Lemma strip_snoc_space (a : str) :
  a <> [] -> trimmed a -> strip (a ++ lit " ") = a.
Proof.
  intros Hne [Hhead Hlast]. unfold strip, rstrip.
  assert (Hl : lstrip (a ++ lit " ") = a ++ lit " ").
  { apply lstrip_id. destruct a; [contradiction | exact Hhead]. }
  rewrite Hl, rev_app_distr. cbn [lit list_ascii_of_string rev app lstrip].
  change (is_space " ") with true. cbv iota.
  rewrite (lstrip_id _ Hlast). apply rev_involutive.
Qed.

Lemma line_of_snoc (group : list str) (sentence : str) :
  line_of (group ++ [sentence]) = line_of group ++ sentence ++ lit " ".
Proof.
  unfold line_of. rewrite map_app, concat_app. cbn [map concat].
  now rewrite app_nil_r.
Qed.

Lemma line_of_join (group : list str) :
  group <> [] -> line_of group = join (lit " ") group ++ lit " ".
Proof.
  induction group as [|s group IH]; [contradiction|]. intros _.
  destruct group as [|q group].
  - unfold line_of. cbn [map concat join]. now rewrite app_nil_r.
  - change (line_of (s :: q :: group)) with ((s ++ lit " ") ++ line_of (q :: group)).
    rewrite IH by discriminate.
    change (join (lit " ") (s :: q :: group))
      with (s ++ lit " " ++ join (lit " ") (q :: group)).
    now rewrite <- !app_assoc.
Qed.

Lemma join_trimmed (group : list str) :
  group <> [] ->
  Forall (fun sentence => sentence <> [] /\ trimmed sentence) group ->
  join (lit " ") group <> [] /\ trimmed (join (lit " ") group).
Proof.
  induction group as [|s group IH]; [contradiction|]. intros _ Hall.
  inversion Hall as [|? ? [Hne [Hh Hl]] Hrest]; subst.
  destruct group as [|q group]; [cbn [join]; now repeat split|].
  destruct (IH ltac:(discriminate) Hrest) as [Hj [Hjh Hjl]].
  change (join (lit " ") (s :: q :: group))
    with (s ++ lit " " ++ join (lit " ") (q :: group)).
  destruct s as [|c s]; [contradiction|]. split; [discriminate|]. split.
  - exact Hh.
  - rewrite !rev_app_distr.
    destruct (rev (join (lit " ") (q :: group))) as [|x r] eqn:E.
    + apply (f_equal (@rev ascii)) in E. rewrite rev_involutive in E.
      contradiction.
    + exact Hjl.
Qed.

Lemma strip_line_of (group : list str) :
  group <> [] ->
  Forall (fun sentence => sentence <> [] /\ trimmed sentence) group ->
  strip (line_of group) = join (lit " ") group.
Proof.
  intros Hne Hall. rewrite (line_of_join Hne).
  destruct (join_trimmed Hne Hall) as [Hj Ht]. now apply strip_snoc_space.
Qed.

Lemma display_step_nonempty (max_line_length : Z) (lines : list str)
      (current_line sentence : str) :
  current_line <> [] ->
  display_step max_line_length (lines, current_line) sentence
  = if (max_line_length
        <? Z.of_nat (length current_line) + Z.of_nat (length sentence) + 1)%Z
    then (lines ++ [strip current_line], sentence ++ lit " ")
    else (lines, current_line ++ sentence ++ lit " ").
Proof. destruct current_line; [contradiction | reflexivity]. Qed.

(** The loop of the formatter, from any state it can reach: the lines
    completed are the groups [done], the line being filled holds the
    group [current]. *)
Lemma display_fold (max_line_length : Z) (sentences : list str) :
  forall done current,
    Forall (fun sentence => sentence <> [] /\ trimmed sentence) sentences ->
    Forall (fun sentence => sentence <> [] /\ trimmed sentence) current ->
    Forall (fun group => group <> []) done ->
    Forall (fits max_line_length) done ->
    (2 <= length current ->
     (Z.of_nat (length (line_of current)) <= max_line_length)%Z) ->
    exists done' current',
      fold_left (display_step max_line_length) sentences
                (map (join (lit " ")) done, line_of current)
      = (map (join (lit " ")) done', line_of current') /\
      concat done' ++ current' = concat done ++ current ++ sentences /\
      Forall (fun sentence => sentence <> [] /\ trimmed sentence) current' /\
      Forall (fun group => group <> []) done' /\
      Forall (fits max_line_length) done' /\
      (2 <= length current' ->
       (Z.of_nat (length (line_of current')) <= max_line_length)%Z).
Proof.
  induction sentences as [|s sentences IH];
    intros done current Hs Hc Hd Hf Hb.
  - exists done, current. rewrite app_nil_r. now repeat split.
  - inversion Hs as [|? ? Hok Hrest]; subst. cbn [fold_left].
    assert (Hnew : forall done0 current0,
               display_step max_line_length
                 (map (join (lit " ")) done, line_of current) s
               = (map (join (lit " ")) done0, line_of current0) ->
               concat done0 ++ current0 = concat done ++ current ++ [s] ->
               Forall (fun sentence => sentence <> [] /\ trimmed sentence)
                      current0 ->
               Forall (fun group => group <> []) done0 ->
               Forall (fits max_line_length) done0 ->
               (2 <= length current0 ->
                (Z.of_nat (length (line_of current0)) <= max_line_length)%Z) ->
               exists done' current',
                 fold_left (display_step max_line_length) sentences
                   (display_step max_line_length
                      (map (join (lit " ")) done, line_of current) s)
                 = (map (join (lit " ")) done', line_of current') /\
                 concat done' ++ current'
                 = concat done ++ current ++ s :: sentences /\
                 Forall (fun sentence => sentence <> [] /\ trimmed sentence)
                        current' /\
                 Forall (fun group => group <> []) done' /\
                 Forall (fits max_line_length) done' /\
                 (2 <= length current' ->
                  (Z.of_nat (length (line_of current')) <= max_line_length)%Z)).
    { intros done0 current0 Hstep Hcat Hc0 Hd0 Hf0 Hb0. rewrite Hstep.
      destruct (IH done0 current0 Hrest Hc0 Hd0 Hf0 Hb0)
        as (done' & current' & Hfold & Hcat' & Hrest').
      exists done', current'. split; [exact Hfold|]. split; [|exact Hrest'].
      rewrite Hcat'.
      transitivity ((concat done0 ++ current0) ++ sentences);
        [apply app_assoc|].
      rewrite Hcat. rewrite <- !app_assoc. reflexivity. }
    destruct current as [|c0 current].
    + apply (Hnew done [s]).
      * unfold display_step, line_of. cbn [map concat app].
        now rewrite app_nil_r.
      * reflexivity.
      * now constructor.
      * exact Hd.
      * exact Hf.
      * cbn [length]. lia.
    + assert (Hne : c0 :: current <> []) by discriminate.
      assert (Hcur : line_of (c0 :: current) <> []).
      { rewrite (line_of_join Hne).
        destruct (join (lit " ") (c0 :: current)); discriminate. }
      destruct (Z.ltb_spec max_line_length
                  (Z.of_nat (length (line_of (c0 :: current)))
                   + Z.of_nat (length s) + 1)) as [Hover | Hfit].
      * apply (Hnew (done ++ [c0 :: current]) [s]).
        -- rewrite (display_step_nonempty _ _ _ Hcur).
           rewrite (proj2 (Z.ltb_lt _ _) Hover).
           rewrite map_app. cbn [map]. rewrite (strip_line_of Hne Hc).
           unfold line_of. cbn [map concat]. now rewrite app_nil_r.
        -- rewrite concat_app. cbn [concat]. now rewrite app_nil_r, <- app_assoc.
        -- now constructor.
        -- apply Forall_app. split; [exact Hd | now constructor].
        -- apply Forall_app. split; [exact Hf|]. constructor; [|constructor].
           intros H2. specialize (Hb H2). rewrite (line_of_join Hne) in Hb.
           rewrite length_app in Hb. change (length (lit " ")) with 1 in Hb.
           lia.
        -- cbn [length]. lia.
      * apply (Hnew done ((c0 :: current) ++ [s])).
        -- rewrite (display_step_nonempty _ _ _ Hcur).
           rewrite (proj2 (Z.ltb_ge _ _) Hfit). now rewrite line_of_snoc.
        -- reflexivity.
        -- apply Forall_app. split; [exact Hc | now constructor].
        -- exact Hd.
        -- exact Hf.
        -- intros _. rewrite line_of_snoc, !length_app.
           change (length (lit " ")) with 1. lia.
Qed.

Lemma display_lines_groups (max_line_length : Z) (sentences : list str) :
  Forall (fun sentence => sentence <> [] /\ trimmed sentence) sentences ->
  exists groups,
    concat groups = sentences /\
    Forall (fun group => group <> []) groups /\
    display_lines max_line_length sentences = map (join (lit " ")) groups /\
    Forall (fits max_line_length) groups.
Proof.
  intros Hs. unfold display_lines.
  destruct (@display_fold max_line_length sentences [] [] Hs)
    as (done & current & Hfold & Hcat & Hc & Hd & Hf & Hb);
    try constructor; [cbn [length]; lia|].
  change (map (join (lit " ")) [], line_of []) with (@nil str, @nil ascii) in Hfold.
  rewrite Hfold. cbn [concat app] in Hcat.
  destruct current as [|c0 current].
  - exists done. rewrite app_nil_r in Hcat. now repeat split.
  - assert (Hne : c0 :: current <> []) by discriminate.
    rewrite (strip_line_of Hne Hc).
    destruct (join_trimmed Hne Hc) as [Hj _].
    destruct (join (lit " ") (c0 :: current)) as [|x rest] eqn:E;
      [contradiction|].
    exists (done ++ [c0 :: current]). split; [|split; [|split]].
    + rewrite concat_app. cbn [concat]. now rewrite app_nil_r.
    + apply Forall_app. split; [exact Hd | now constructor].
    + rewrite map_app. cbn [map]. now rewrite E.
    + apply Forall_app. split; [exact Hf|]. constructor; [|constructor].
      intros H2. specialize (Hb H2). rewrite (line_of_join Hne), E in Hb.
      rewrite length_app in Hb. change (length (lit " ")) with 1 in Hb.
      rewrite E. lia.
Qed.

(** X16: the formatter keeps every sentence, in order: its output is the
    sentences of the text cut into consecutive non-empty groups, each
    group joined by single spaces into a line, the lines joined by blank
    lines; and a line of two sentences or more is strictly shorter than
    [max_line_length], so that only a line made of one sentence can
    exceed it. *)
Theorem format_for_display_groups (nltk : Nltk) (text : str)
        (max_line_length : Z) :
  exists groups,
    concat groups = split_into_sentences nltk text /\
    Forall (fun group => group <> []) groups /\
    format_for_display nltk text max_line_length
    = join [nl; nl] (map (join (lit " ")) groups) /\
    Forall (fits max_line_length) groups.
Proof.
  unfold format_for_display. cbv zeta.
  destruct (@display_lines_groups max_line_length
              (split_into_sentences nltk text))
    as (groups & Hcat & Hne & Hlines & Hfits).
  - apply Forall_forall. intros s Hs.
    apply sentences_long_and_trimmed in Hs as [Hlen Ht].
    split; [|exact Ht]. intros ->. cbn [length] in Hlen. lia.
  - exists groups. rewrite Hlines. now repeat split.
Qed.

(** ** The regular-expression segmenter without sentence breaks *)

Lemma match_here_sentence_break (prev : option ascii) (c : ascii) (s : str) :
  one_of ".!?" c = false ->
  match_here re_sentence_break prev (c :: s) = None.
Proof.
  intros Hc. unfold match_here, re_sentence_break, plus.
  cbn [rmatch rep hi_allows andb]. now rewrite Hc.
Qed.

Lemma re_split_no_break (cur : str) (prev : option ascii) (s : str) :
  (forall c, In c s -> one_of ".!?" c = false) ->
  re_split_go re_sentence_break 0 cur prev s = [rev cur ++ s].
Proof.
  revert cur prev. induction s as [|c s IH]; intros cur prev Hs.
  - cbn [re_split_go]. now rewrite app_nil_r.
  - cbn [re_split_go]. rewrite match_here_sentence_break by (apply Hs; now left).
    rewrite IH by (intros x Hx; apply Hs; now right).
    cbn [rev]. now rewrite <- app_assoc.
Qed.

(** X5: without NLTK, a text with no period, exclamation mark or question
    mark is one sentence: the text without its surrounding whitespace,
    returned when it is longer than 10 characters and dropped
    otherwise. *)
Theorem split_into_sentences_no_terminator (text : str) :
  (forall c, In c text -> one_of ".!?" c = false) ->
  split_into_sentences no_nltk text
  = if 10 <? length (strip text) then [strip text] else [].
Proof.
  intros Hs. unfold split_into_sentences. cbn [sent_tokenize no_nltk].
  unfold re_split. rewrite (@re_split_no_break [] None text Hs).
  reflexivity.
Qed.

Lemma split_into_sentences_no_terminator_witness :
  split_into_sentences no_nltk (lit "  machine learning overview ")
  = [lit "machine learning overview"].
Proof.
  apply (@split_into_sentences_no_terminator (lit "  machine learning overview ")).
  intros c Hc. vm_compute in Hc.
  repeat (destruct Hc as [<- | Hc]; [reflexivity|]). contradiction.
Defined.
